(** * coc-smartf: the jump session of [src/manager.ts]

    A shallow embedding of the [Manager] class: its fields become a record,
    every method becomes a function from the record (and the replies of the
    editor) to the new record and the list of requests sent to the editor.
    Numbers exchanged with the editor are integers and are kept in [Z];
    strings are sequences of UTF-16 code units, as in JavaScript. *)

From Stdlib Require Import String Ascii.
From Stdlib Require Import ZArith NArith List Bool Lia.
From Stdlib Require Import Sorting.Sorted.
Import ListNotations.

Local Open Scope Z_scope.

(** ** JavaScript strings and arrays *)

(** A string is the list of its UTF-16 code units. *)
Definition jsstring := list N.

(** The code units of an ASCII literal. *)
Definition js (s : string) : jsstring :=
  map (fun a => N.of_nat (nat_of_ascii a)) (list_ascii_of_string s).

Fixpoint str_eqb (a b : jsstring) : bool :=
  match a, b with
  | [], [] => true
  | x :: a', y :: b' => N.eqb x y && str_eqb a' b'
  | _, _ => false
  end.

(** Truthiness of a string value: only the empty string is falsy. *)
Definition truthy (s : jsstring) : bool :=
  match s with [] => false | _ :: _ => true end.

(** Truthiness of an optional string ([undefined] is falsy). *)
Definition truthy_opt (s : option jsstring) : bool :=
  match s with None => false | Some s' => truthy s' end.

(** Index normalisation of [Array.prototype.slice] and
    [String.prototype.slice]: a negative index counts from the end, and the
    result is clamped to [0 .. len]. *)
Definition sliceIndex (len i : Z) : Z :=
  if i <? 0 then Z.max (len + i) 0 else Z.min i len.

(** [l.slice(start, stop)] *)
Definition jsSlice {A : Type} (l : list A) (start stop : Z) : list A :=
  let len := Z.of_nat (length l) in
  let k := sliceIndex len start in
  let e := sliceIndex len stop in
  firstn (Z.to_nat (e - k)) (skipn (Z.to_nat k) l).

(** [l.slice(start)] *)
Definition jsSliceFrom {A : Type} (l : list A) (start : Z) : list A :=
  jsSlice l start (Z.of_nat (length l)).

(** [l[l.length - 1] = x].  On an empty array the index is [-1]: the
    assignment creates a property that is no element, and the array stays
    empty. *)
Definition setLast {A : Type} (l : list A) (x : A) : list A :=
  match l with
  | [] => []
  | _ :: _ => removelast l ++ [x]
  end.

Definition isHighSurrogate (u : N) : bool := (55296 <=? u)%N && (u <=? 56319)%N.
Definition isLowSurrogate (u : N) : bool := (56320 <=? u)%N && (u <=? 57343)%N.

(** [Buffer.byteLength(s)]: the length of the UTF-8 encoding of [s].  A
    surrogate pair takes four bytes, a lone surrogate is encoded as U+FFFD
    (three bytes). *)
Fixpoint byteLength (s : jsstring) : nat :=
  match s with
  | [] => 0
  | u :: r =>
      if (u <? 128)%N then S (byteLength r)
      else if (u <? 2048)%N then 2 + byteLength r
      else if isHighSurrogate u then
        match r with
        | l :: r' => if isLowSurrogate l then 4 + byteLength r'
                     else 3 + byteLength r
        | [] => 3
        end
      else 3 + byteLength r
  end%nat.

(** [byteIndex(content, index)] (manager.ts, line 169) *)
Definition byteIndex (content : jsstring) (index : nat) : nat :=
  let s := jsSlice content 0 (Z.of_nat index) in
  byteLength s.

(** ** The label alphabet (manager.ts, lines 4-7) *)

Definition characters : list jsstring :=
  map js
  [ "a"; "b"; "c"; "d"; "e"; "f"; "g"; "h"; "i"; "j"; "k"; "l"; "m"; "n"; "o";
    "p"; "q"; "r";
    "s"; "t"; "u"; "v"; "w"; "x"; "y"; "z"; "1"; "2"; "3"; "4"; "5"; "6"; "7";
    "8"; "9"; "0";
    ","; "." ]%string.

(** The glyph of the remainder markers, also the key that repeats. *)
Definition repeatGlyph : jsstring := js ";".

(** ** Data *)

(** A candidate of the position finder: offsets inside the scanned lines. *)
Record Position := mkPosition {
  pos_line : nat;
  pos_character : nat
}.

(** interface [Character] (manager.ts, lines 9-12) *)
Record Character := mkCharacter {
  ch_position : Z * Z;
  ch_character : jsstring
}.

(** A JavaScript [Map] with string keys: entries are kept in insertion
    order, and setting a key that is present replaces its value in place. *)
Module JsMap.
Definition t (V : Type) := list (jsstring * V).

Definition empty {V : Type} : t V := [].

Fixpoint get {V : Type} (k : jsstring) (m : t V) : option V :=
  match m with
  | [] => None
  | (k', v) :: r => if str_eqb k' k then Some v else get k r
  end.

Fixpoint set {V : Type} (k : jsstring) (v : V) (m : t V) : t V :=
  match m with
  | [] => [(k, v)]
  | (k', v') :: r =>
      if str_eqb k' k then (k, v) :: r else (k', v') :: set k v r
  end.

Definition keys {V : Type} (m : t V) : list jsstring := map fst m.
Definition values {V : Type} (m : t V) : list V := map snd m.
Definition size {V : Type} (m : t V) : nat := length m.
End JsMap.

(** The fields of [Manager] (manager.ts, lines 15-23).  [nvim] is the
    editor, represented by the requests below; [changeStart] is never
    assigned nor read. *)
Record Manager := mkManager {
  matchIds : list Z;
  positionMap : JsMap.t Character;
  timeout : Z;
  character : option jsstring;
  isForward : bool;
  jumpOnTrigger : bool;
  wordJump : bool;
  repeatPosition : option (Z * Z)
}.

Definition set_matchIds (ids : list Z) (m : Manager) : Manager :=
  mkManager ids (positionMap m) (timeout m) (character m) (isForward m)
            (jumpOnTrigger m) (wordJump m) (repeatPosition m).

Definition set_positionMap (pm : JsMap.t Character) (m : Manager) : Manager :=
  mkManager (matchIds m) pm (timeout m) (character m) (isForward m)
            (jumpOnTrigger m) (wordJump m) (repeatPosition m).

Definition set_search (fwd : bool) (c : jsstring) (m : Manager) : Manager :=
  mkManager (matchIds m) (positionMap m) (timeout m) (Some c) fwd
            (jumpOnTrigger m) (wordJump m) (repeatPosition m).

Definition set_repeatPosition (p : option (Z * Z)) (m : Manager) : Manager :=
  mkManager (matchIds m) (positionMap m) (timeout m) (character m)
            (isForward m) (jumpOnTrigger m) (wordJump m) p.

(** The configuration section [smartf]; an absent key takes its default. *)
Record Config := mkConfig {
  cfg_timeout : option Z;
  cfg_jumpOnTrigger : option bool;
  cfg_wordJump : option bool
}.

Definition config_get {A : Type} (v : option A) (default : A) : A :=
  match v with Some x => x | None => default end.

(** constructor (manager.ts, lines 24-29) *)
Definition newManager (config : Config) : Manager :=
  {| matchIds := [];
     positionMap := JsMap.empty;
     timeout := config_get (cfg_timeout config) 1000;
     character := None;
     isForward := true;
     jumpOnTrigger := config_get (cfg_jumpOnTrigger config) true;
     wordJump := config_get (cfg_wordJump config) true;
     repeatPosition := None |}.

(** ** The editor *)

(** The error triple of a failed batch. *)
Definition Err := (jsstring * jsstring * jsstring)%type.

(** The requests the manager sends. *)
Inductive HostCall :=
| coc_util_cursor                       (* call coc#util#cursor() *)
| line_w0                               (* call line('w0') *)
| getline_dot                           (* call getline('.') *)
| eval_visible_lines                    (* getline(line('w0'), line('w$')) *)
| setl_conceallevel                     (* setl conceallevel=2 *)
| call_cursor (p : Z * Z)               (* call cursor(line, col) *)
| getpos_dot                            (* call getpos('.') *)
| doautocmd (name : string)             (* silent doautocmd User <name> *)
| matchaddpos (group : string) (line col len : Z) (priority : Z)
              (id : option Z)
              (conceal : option jsstring)
| setVar_activated (v : Z)              (* coc_smartf_activated *)
| clearmatches (ids : list Z)           (* call coc#util#clearmatches(ids) *)
| feedkeys_esc.                         (* call feedkeys("\<esc>", 'in') *)

Inductive Event :=
| Batch (calls : list HostCall)   (* pauseNotification .. resumeNotification *)
| Request (c : HostCall)          (* awaited call *)
| Notify (c : HostCall)           (* notification outside a batch *)
| GetChar                         (* callAsync('coc#list#getchar') *)
| ShowMessage (e : Err)           (* workspace.showMessage(.., 'error') *)
| SetTimeout (ms : Z).            (* setTimeout(callback, ms) *)

(** The result of the first batch of [jump]: cursor (0-based line and
    character offset), first visible line (1-based), text of the current
    line, text of the visible lines. *)
Record View := mkView {
  v_cursor : Z * Z;
  v_startline : Z;
  v_currline : jsstring;
  v_lines : list jsstring
}.

(** What the editor answers during one call of [jump]. *)
Record Host := mkHost {
  batch1 : Err + View;              (* first resumeNotification *)
  getchar : jsstring;               (* the prompted search character *)
  getpos : Z * Z;                   (* line and column of getpos('.') *)
  batch2 : list Z * option Err      (* second resumeNotification *)
}.

(** ** The position finder

    [getPositions] lives in [src/util.ts]; the word-boundary rule it applies
    is a parameter of the development. *)

Section Smartf.

Variable wordStart : jsstring -> nat -> bool.

(** Modelled from the spec: the occurrence test of the position finder,
    whose source ([getPositions] of util.ts) is missing.  The search
    character (one code point, so one or two code units) occurs in [text]
    at offset [j]. *)
Definition occursAt (c text : jsstring) (j : nat) : bool :=
  truthy c && str_eqb (firstn (length c) (skipn j text)) c.

(** Modelled from the spec: the candidate test of the missing
    [getPositions]: every literal occurrence, restricted to word starts when
    the word-boundary flag is set; the column offset excludes the offsets
    below it on the first line only. *)
Definition isCandidate (c : jsstring) (wordJump : bool) (offset : Z)
    (i : nat) (text : jsstring) (j : nat) : bool :=
  occursAt c text j
  && (negb wordJump || wordStart text j)
  && (negb (i =? 0)%nat || (offset <=? Z.of_nat j)).

(** Modelled from the spec: the candidates of line [i] of the missing
    [getPositions], in the order they appear. *)
Definition linePositions (c : jsstring) (wordJump : bool) (offset : Z)
    (i : nat) (text : jsstring) : list Position :=
  map (mkPosition i)
      (filter (isCandidate c wordJump offset i text) (seq 0 (length text))).

(** Modelled from the spec: the line loop of the missing [getPositions]. *)
Fixpoint scanFrom (c : jsstring) (wordJump : bool) (offset : Z) (i : nat)
    (lines : list jsstring) : list Position :=
  match lines with
  | [] => []
  | text :: rest =>
      linePositions c wordJump offset i text
      ++ scanFrom c wordJump offset (S i) rest
  end.

(** Modelled from the spec: [getPositions(character, lines, wordJump,
    offset)] of the missing util.ts: the candidates in the order the lines
    and offsets appear, the empty list when nothing matches. *)
Definition getPositions (c : jsstring) (lines : list jsstring)
    (wordJump : bool) (offset : Z) : list Position :=
  scanFrom c wordJump offset 0 lines.

(** ** [jump] (manager.ts, lines 47-127) *)

(** The lines handed to the finder (lines 69-76). *)
Definition scanLines (isFwd : bool) (v : View) : list jsstring :=
  let cursor := v_cursor v in
  let startline := v_startline v in
  if negb isFwd then
    let count := fst cursor - (startline - 1) + 1 in
    let lines := jsSlice (v_lines v) 0 count in
    setLast lines (jsSlice (v_currline v) 0 (snd cursor))
  else
    jsSliceFrom (v_lines v) (fst cursor - (startline - 1)).

(** The column offset handed to the finder (lines 67-76). *)
Definition scanOffset (isFwd : bool) (v : View) : Z :=
  if negb isFwd then 0 else snd (v_cursor v) + 1.

(** Line and column of a candidate on the screen (lines 84-85 and 98-99);
    [None] when [lines[pos.line]] is undefined, where [byteIndex] throws. *)
Definition screenPos (isFwd : bool) (v : View) (lines : list jsstring)
    (pos : Position) : option (Z * Z) :=
  let cursor := v_cursor v in
  let startline := v_startline v in
  let line := startline + Z.of_nat (pos_line pos)
              + (if isFwd then fst cursor + 1 - startline else 0) in
  match nth_error lines (pos_line pos) with
  | None => None
  | Some content =>
      let col := Z.of_nat (byteIndex content (pos_character pos)) + 1 in
      Some (line, col)
  end.

(** The loop of lines 95-105, from index [i] on, over the part of
    [positions] not yet visited.  The result holds the label table, the
    remainder list, and whether the loop ran to its end ([false] when it
    threw). *)
Fixpoint labelLoop (isFwd : bool) (v : View) (lines : list jsstring)
    (i : nat) (positions : list Position)
    (pm : JsMap.t Character) (remains : list (Z * Z))
    : JsMap.t Character * list (Z * Z) * bool :=
  match positions with
  | [] => (pm, remains, true)
  | pos :: rest =>
      let ch := nth_error characters i in
      match screenPos isFwd v lines pos with
      | None => (pm, remains, false)
      | Some (line, col) =>
          match ch with
          | Some ch' =>
              if truthy ch' then
                labelLoop isFwd v lines (S i) rest
                  (JsMap.set ch' (mkCharacter (line, col) ch') pm) remains
              else
                labelLoop isFwd v lines (S i) rest pm
                  (remains ++ [(line, col)])
          | None =>
              labelLoop isFwd v lines (S i) rest pm (remains ++ [(line, col)])
          end
      end
  end.

(** The local variables of one call of [jump] at the point where the
    markers are shown and [getCharacter] is started. *)
Record Session := mkSession {
  s_isForward : bool;               (* parameter isForward *)
  s_character : jsstring;           (* the search character *)
  s_lines : list jsstring;          (* the lines handed to the finder *)
  s_positions : list Position;      (* the candidates that were labelled *)
  s_currpos : Z * Z;
  s_remains : list (Z * Z)
}.

(** How a call of [jump] ends. *)
Inductive Outcome :=
| HostError                 (* line 59: the first batch failed *)
| NoMatch                   (* line 78 *)
| NoLabels                  (* line 92 *)
| MarkerError               (* line 121: the second batch failed *)
| Threw                     (* byteIndex on an undefined line *)
| Awaiting (s : Session).   (* line 123: getCharacter is started *)

Definition firstBatch : list HostCall :=
  [coc_util_cursor; line_w0; getline_dot; eval_visible_lines;
   setl_conceallevel].

Definition labelMarker (val : Character) : HostCall :=
  matchaddpos "Conceal" (fst (ch_position val)) (snd (ch_position val)) 1
              99 (Some (-1)) (Some (ch_character val)).

Definition cursorMarker (currpos : Z * Z) : HostCall :=
  matchaddpos "Cursor" (fst currpos) (snd currpos) 1 99 None None.

Definition remainMarker (val : Z * Z) : HostCall :=
  matchaddpos "Conceal" (fst val) (snd val) 1 99 (Some (-1))
              (Some repeatGlyph).

Definition markerBatch (pm : JsMap.t Character) (currpos : Z * Z)
    (remains : list (Z * Z)) : list HostCall :=
  doautocmd "SmartfEnter"
  :: map labelMarker (JsMap.values pm)
  ++ [cursorMarker currpos]
  ++ map remainMarker remains.

(** Lines 81-91: the candidates left to label, the reference position and
    the request sent; [None] when [byteIndex] throws. *)
Definition firstJump (h : Host) (isFwd : bool) (v : View)
    (lines : list jsstring) (positions : list Position) (jumpNow : bool)
    : option (list Position * (Z * Z) * list Event) :=
  if jumpNow then
    match positions with
    | [] => None
    | first :: rest =>
        match screenPos isFwd v lines first with
        | None => None
        | Some p => Some (rest, p, [Request (call_cursor p)])
        end
    end
  else Some (positions, getpos h, [Request getpos_dot]).

(** Lines 62-66: the search character is prompted for unless a truthy one
    was passed. *)
Definition searchCharacter (h : Host) (chr : option jsstring) : jsstring :=
  match chr with
  | Some c' => if truthy c' then c' else getchar h
  | None => getchar h
  end.

Definition jump (h : Host) (isFwd : bool) (chr : option jsstring)
    (m0 : Manager) : Manager * list Event * Outcome :=
  let m1 := set_positionMap JsMap.empty m0 in
  let ev1 := [Batch firstBatch] in
  match batch1 h with
  | inl err => (m1, ev1 ++ [ShowMessage err], HostError)
  | inr v =>
      let prompted := negb (truthy_opt chr) in
      let c := searchCharacter h chr in
      let m2 := if prompted then set_search isFwd c m1 else m1 in
      let ev2 := if prompted then ev1 ++ [GetChar] else ev1 in
      let lines := scanLines isFwd v in
      let offset := scanOffset isFwd v in
      let found := getPositions c lines (wordJump m2) offset in
      if (length found =? 0)%nat then (m2, ev2, NoMatch)
      else
        let positions := if negb isFwd then rev found else found in
        match firstJump h isFwd v lines positions (jumpOnTrigger m2) with
        | None => (m2, ev2, Threw)
        | Some (positions', currpos, ev) =>
            let ev3 := ev2 ++ ev in
            if (length positions' =? 0)%nat then (m2, ev3, NoLabels)
            else
              let m3 := set_positionMap JsMap.empty m2 in
              match labelLoop isFwd v lines 0 positions' (positionMap m3) []
              with
              | (pm, remains, false) => (set_positionMap pm m3, ev3, Threw)
              | (pm, remains, true) =>
                  let m4 := set_repeatPosition (hd_error remains)
                              (set_positionMap pm m3) in
                  let ev4 := ev3 ++ [Batch (markerBatch pm currpos remains)]
                  in
                  match snd (batch2 h) with
                  | Some _ => (m4, ev4, MarkerError)
                  | None =>
                      (set_matchIds (fst (batch2 h)) m4, ev4,
                       Awaiting (mkSession isFwd c lines positions' currpos
                                           remains))
                  end
              end
        end
  end.

(** The public entry points (lines 31-45). *)
Definition forward (h : Host) (m : Manager) := jump h true None m.
Definition backward (h : Host) (m : Manager) := jump h false None m.
Definition repeat (h : Host) (m : Manager) :=
  jump h (isForward m) (character m) m.
Definition repeatOpposite (h : Host) (m : Manager) :=
  jump h (negb (isForward m)) (character m) m.

Inductive Entry := Forward | Backward | Repeat | RepeatOpposite.

Definition enter (e : Entry) (h : Host) (m : Manager) :=
  match e with
  | Forward => forward h m
  | Backward => backward h m
  | Repeat => repeat h m
  | RepeatOpposite => repeatOpposite h m
  end.

(** ** [cancel] (lines 152-161) *)

(** The batch that clears the markers [ids] (lines 155-160). *)
Definition clearBatch (ids : list Z) : Event :=
  Batch [setVar_activated 0; doautocmd "SmartfLeave"; clearmatches ids].

Definition cancel (m : Manager) : Manager * list Event :=
  if (length (matchIds m) =? 0)%nat then (m, [])
  else
    (set_matchIds [] m, [clearBatch (matchIds m)]).

(** ** [getCharacter] (lines 129-150) *)

(** Who wins the race between the key capture and the timer. *)
Inductive Race :=
| KeyFirst (ch : jsstring)
    (* the capture yields [ch] before the timer fires; the timer finds
       [finished] set and does nothing *)
| TimerFirst (ch : jsstring).
    (* the timer fires first; the capture yields [ch] afterwards *)

(** [this.timeout || 1000] *)
Definition timerDelay (m : Manager) : Z :=
  if timeout m =? 0 then 1000 else timeout m.

(** The result holds the arguments of the call of [jump] of line 142, when
    it is made. *)
Definition getCharacter (m : Manager) (r : Race)
    : Manager * list Event * option (bool * option jsstring) :=
  let ev0 := [GetChar; SetTimeout (timerDelay m)] in
  let '(m1, ev1, ch) :=
    match r with
    | KeyFirst ch => (m, ev0, ch)
    | TimerFirst ch =>
        let '(m', evc) := cancel m in
        (m', ev0 ++ [Notify feedkeys_esc] ++ evc, ch)
    end in
  match (if str_eqb ch repeatGlyph then repeatPosition m1 else None) with
  | Some p =>
      let '(m2, evc) := cancel m1 in
      (m2, ev1 ++ evc ++ [Notify (call_cursor p)],
       Some (isForward m2, character m2))
  | None =>
      let val := JsMap.get ch (positionMap m1) in
      let '(m2, evc) := cancel m1 in
      (m2,
       ev1 ++ evc
       ++ match val with
          | Some val' => [Notify (call_cursor (ch_position val'))]
          | None => []
          end,
       None)
  end.

(** ** Reachable states *)

(** The states of a manager after any sequence of calls: a call of [jump]
    (every entry point is one), the continuation of [getCharacter], and
    [cancel]. *)
Inductive reachable : Manager -> Prop :=
| reach_new : forall config, reachable (newManager config)
| reach_jump : forall h isFwd chr m,
    reachable m -> reachable (fst (fst (jump h isFwd chr m)))
| reach_getCharacter : forall m r,
    reachable m -> reachable (fst (fst (getCharacter m r)))
| reach_cancel : forall m,
    reachable m -> reachable (fst (cancel m)).

(** The manager of a call of [jump] once the search character is known
    (lines 49-66), for the statements below. *)
Definition afterPrompt (h : Host) (isFwd : bool) (chr : option jsstring)
    (m0 : Manager) : Manager :=
  let m1 := set_positionMap JsMap.empty m0 in
  if negb (truthy_opt chr) then set_search isFwd (searchCharacter h chr) m1
  else m1.

(** The requests of a call of [jump] up to the same point. *)
Definition promptEvents (chr : option jsstring) : list Event :=
  if negb (truthy_opt chr) then [Batch firstBatch] ++ [GetChar]
  else [Batch firstBatch].

(** The candidates of a call of [jump] in label priority order (lines
    77-79), for the statements below. *)
Definition candidates (isFwd : bool) (c : jsstring) (v : View)
    (wordJump : bool) : list Position :=
  let found := getPositions c (scanLines isFwd v) wordJump (scanOffset isFwd v)
  in if negb isFwd then rev found else found.

(** The entries the label loop builds from an alphabet and screen
    positions. *)
Definition labelEntries (cs : list jsstring) (screen : list (Z * Z))
    : JsMap.t Character :=
  map (fun e => (fst e, mkCharacter (snd e) (fst e))) (combine cs screen).

(** The end of a call of [jump] (lines 106-123) once the label loop has run
    over candidates whose screen positions are [screen]. *)
Definition showLabels (h : Host) (isFwd : bool) (c : jsstring)
    (lines : list jsstring) (m2 : Manager) (ev3 : list Event)
    (positions : list Position) (currpos : Z * Z) (screen : list (Z * Z))
    : Manager * list Event * Outcome :=
  let pm := labelEntries characters screen in
  let remains := skipn 38 screen in
  let m4 := set_repeatPosition (hd_error remains)
              (set_positionMap pm (set_positionMap JsMap.empty m2)) in
  let ev4 := ev3 ++ [Batch (markerBatch pm currpos remains)] in
  match snd (batch2 h) with
  | Some _ => (m4, ev4, MarkerError)
  | None =>
      (set_matchIds (fst (batch2 h)) m4, ev4,
       Awaiting (mkSession isFwd c lines positions currpos remains))
  end.

(** Order of appearance of candidates. *)
Definition posLt (p q : Position) : Prop :=
  (pos_line p < pos_line q)%nat
  \/ (pos_line p = pos_line q /\ (pos_character p < pos_character q)%nat).


End Smartf.

(** ** Reading the requests *)

Definition isClearCall (c : HostCall) : bool :=
  match c with clearmatches _ => true | _ => false end.

Definition isCursorCall (c : HostCall) : bool :=
  match c with call_cursor _ => true | _ => false end.


(** Whether one of the calls an event sends satisfies [f]. *)
Definition sends (f : HostCall -> bool) (e : Event) : bool :=
  match e with
  | Batch calls => existsb f calls
  | Request c => f c
  | Notify c => f c
  | GetChar => false
  | ShowMessage _ => false
  | SetTimeout _ => false
  end.



(** [GetChar] as a test. *)
Definition isGetChar (e : Event) : bool :=
  match e with GetChar => true | _ => false end.

(** ** UTF-8 buffers and [characterIndex] *)

Definition enc2 (u : N) : list N :=
  [N.lor 192 (N.shiftr u 6); N.lor 128 (N.land u 63)].

Definition enc3 (u : N) : list N :=
  [N.lor 224 (N.shiftr u 12); N.lor 128 (N.land (N.shiftr u 6) 63);
   N.lor 128 (N.land u 63)].

Definition enc4 (cp : N) : list N :=
  [N.lor 240 (N.shiftr cp 18); N.lor 128 (N.land (N.shiftr cp 12) 63);
   N.lor 128 (N.land (N.shiftr cp 6) 63); N.lor 128 (N.land cp 63)].

(** The bytes of U+FFFD, which stands for a lone surrogate. *)
Definition encReplacement : list N := [239; 191; 189]%N.

(** [Buffer.from(s, 'utf8')]: the bytes of the UTF-8 encoding of [s].  A
    surrogate pair is one code point of four bytes. *)
Fixpoint utf8Encode (s : jsstring) : list N :=
  match s with
  | [] => []
  | u :: r =>
      if (u <? 128)%N then u :: utf8Encode r
      else if (u <? 2048)%N then enc2 u ++ utf8Encode r
      else if isHighSurrogate u then
        match r with
        | l :: r' =>
            if isLowSurrogate l
            then enc4 (65536 + (u - 55296) * 1024 + (l - 56320)) ++ utf8Encode r'
            else encReplacement ++ utf8Encode r
        | [] => encReplacement
        end
      else if isLowSurrogate u then encReplacement ++ utf8Encode r
      else enc3 u ++ utf8Encode r
  end%N.

(** The state of the UTF-8 decoder of the Encoding Standard: the code point
    being assembled, the bytes the sequence needs after its first one, the
    bytes seen of them, and the bounds of the next byte. *)
Record Utf8State := mkUtf8State {
  u8_codepoint : N;
  u8_needed : N;
  u8_seen : N;
  u8_lower : N;
  u8_upper : N
}.

Definition utf8Start : Utf8State := mkUtf8State 0 0 0 128 191.

Definition inRange (lo hi b : N) : bool := (lo <=? b)%N && (b <=? hi)%N.

(** A byte read when no sequence is open. *)
Definition utf8First (b : N) : Utf8State * list N :=
  if (b <=? 127)%N then (utf8Start, [b])
  else if inRange 194 223 b then
    (mkUtf8State (N.land b 31) 1 0 128 191, [])
  else if inRange 224 239 b then
    (mkUtf8State (N.land b 15) 2 0
                 (if (b =? 224)%N then 160 else 128)
                 (if (b =? 237)%N then 159 else 191), [])
  else if inRange 240 244 b then
    (mkUtf8State (N.land b 7) 3 0
                 (if (b =? 240)%N then 144 else 128)
                 (if (b =? 244)%N then 143 else 191), [])
  else (utf8Start, [65533%N]).

(** One byte: the new state and the code points it completes.  A byte that
    cannot continue the open sequence ends it with U+FFFD and is read again
    as a first byte. *)
Definition utf8Step (st : Utf8State) (b : N) : Utf8State * list N :=
  if (u8_needed st =? 0)%N then utf8First b
  else if inRange (u8_lower st) (u8_upper st) b then
    let cp := N.lor (N.shiftl (u8_codepoint st) 6) (N.land b 63) in
    if (N.succ (u8_seen st) =? u8_needed st)%N then (utf8Start, [cp])
    else (mkUtf8State cp (u8_needed st) (N.succ (u8_seen st)) 128 191, [])
  else let (st', out) := utf8First b in (st', 65533%N :: out).

Fixpoint utf8Steps (st : Utf8State) (bytes : list N)
    : Utf8State * list N :=
  match bytes with
  | [] => (st, [])
  | b :: r =>
      let (st', out) := utf8Step st b in
      let (st'', out') := utf8Steps st' r in
      (st'', out ++ out')
  end.

(** The code points of a byte sequence; a sequence left open at the end
    gives U+FFFD. *)
Definition utf8Decode (bytes : list N) : list N :=
  let r := utf8Steps utf8Start bytes in
  snd r ++ (if (u8_needed (fst r) =? 0)%N then [] else [65533%N]).

(** The UTF-16 code units of code points. *)
Definition utf16 (cps : list N) : jsstring :=
  flat_map (fun cp =>
              if (cp <? 65536)%N then [cp]
              else [55296 + N.shiftr (cp - 65536) 10;
                    56320 + N.land (cp - 65536) 1023]%N) cps.

(** [buf.toString('utf8')] *)
Definition utf8ToString (bytes : list N) : jsstring :=
  utf16 (utf8Decode bytes).

(** [characterIndex(content, byteIndex)] (manager.ts, lines 164-167) *)
Definition characterIndex (content : jsstring) (byteOffset : Z) : nat :=
  let buf := utf8Encode content in
  length (utf8ToString (jsSlice buf 0 byteOffset)).

(** Whether the offset [index] lies between the two halves of a surrogate
    pair of [content]. *)
Definition splitsPair (content : jsstring) (index : nat) : bool :=
  match index with
  | O => false
  | S j =>
      match nth_error content j, nth_error content index with
      | Some h, Some l => isHighSurrogate h && isLowSurrogate l
      | _, _ => false
      end
  end.

(** Exhaustive checks over an initial segment of N. *)
Definition N_forall (f : N -> bool) (n : N) : bool :=
  snd (N.iter n (fun st => (N.succ (fst st), snd st && f (fst st)))
              (0%N, true)).

Definition utf8State_eqb (a b : Utf8State) : bool :=
  (u8_codepoint a =? u8_codepoint b)%N && (u8_needed a =? u8_needed b)%N
  && (u8_seen a =? u8_seen b)%N && (u8_lower a =? u8_lower b)%N
  && (u8_upper a =? u8_upper b)%N.

(** The bytes of a sequence before its last one, given the code point
    without its six low bits. *)
Definition pre2 (y : N) : list N := [N.lor 192 y].

Definition pre3 (y : N) : list N :=
  [N.lor 224 (N.shiftr y 6); N.lor 128 (N.land y 63)].

Definition pre4 (y : N) : list N :=
  [N.lor 240 (N.shiftr y 12); N.lor 128 (N.land (N.shiftr y 6) 63);
   N.lor 128 (N.land y 63)].

(** The bytes [bytes] read from the start leave a sequence of [n] bytes
    after the first open, the last byte to come, with the bits [y]
    assembled. *)
Definition opens (bytes : list N) (y n : N) : bool :=
  match utf8Steps utf8Start bytes with
  | (st, []) => utf8State_eqb st (mkUtf8State y n (N.pred n) 128 191)
  | _ => false
  end.

Definition check2 (y : N) : bool :=
  if (y <? 2)%N then true else opens (pre2 y) y 1.

Definition check3 (y : N) : bool :=
  if (y <? 32)%N || ((864 <=? y)%N && (y <? 896)%N) then true
  else opens (pre3 y) y 2.

Definition check4 (y : N) : bool :=
  if (y <? 1024)%N then true else opens (pre4 y) y 3.

(** The last byte of a sequence, from six bits [m]. *)
Definition checkLast (m : N) : bool :=
  inRange 128 191 (N.lor 128 m) && (N.land (N.lor 128 m) 63 =? m)%N.

(** ** Concrete sessions, used to run the model *)

(** A word-boundary rule: the offset starts the line or follows a space. *)
Definition afterSpace (text : jsstring) (j : nat) : bool :=
  match j with
  | O => true
  | S j' => match nth_error text j' with
            | Some u => N.eqb u 32
            | None => false
            end
  end.

Definition escape : jsstring := [27%N].

(** The defaults, with the word-boundary filter switched off. *)
Definition literalConfig : Config := mkConfig None None (Some false).

(** Three visible lines, cursor on the first character of the first. *)
Definition foxView : View :=
  mkView (0, 0) 1 (js "fox") [js "fox"; js "box"; js "cow"].

Definition foxHost : Host :=
  mkHost (inr foxView) (js "o") (1, 1) ([0; 4; 5; 6], None).

(** One visible line of 45 times the letter x, cursor on the last one. *)
Definition rowOfX : jsstring := List.repeat 120%N 45.

Definition rowView : View := mkView (0, 44) 1 rowOfX [rowOfX].

Definition rowHost : Host :=
  mkHost (inr rowView) (js "x") (1, 45) ([0; 4; 5; 6], None).

(** The same line, cursor on its first character. *)
Definition rowStartView : View := mkView (0, 0) 1 rowOfX [rowOfX].

Definition rowStartHost : Host :=
  mkHost (inr rowStartView) (js "x") (1, 1) ([0; 4; 5; 6], None).

(** Six visible lines, cursor on line 5 (0-based), character 10; the letter
    x occurs on line 5 at offset 3 and on line 2 at offset 1. *)
Definition sixView : View :=
  mkView (5, 10) 1 (js "abcxefghijklm")
         [js "zero"; js "one"; js "axb"; js "three"; js "four";
          js "abcxefghijklm"].

Definition sixHost : Host :=
  mkHost (inr sixView) (js "x") (6, 11) ([0; 4; 5], None).

(** One visible line, cursor on its first character, the letter x. *)
Definition oneView : View := mkView (0, 0) 1 (js "xa") [js "xa"].

Definition oneHost : Host :=
  mkHost (inr oneView) (js "x") (1, 1) ([0; 4], None).

(** The session started by a call of [jump] that ended in [Awaiting]. *)
Definition theSession (o : Outcome) : Session :=
  match o with
  | Awaiting s => s
  | _ => mkSession true [] [] [] (0, 0) []
  end.

Definition freshManager : Manager := newManager literalConfig.

(** forward, search character o, on the three lines. *)
Definition foxRun := forward afterSpace foxHost freshManager.

(** The same with a configured timeout of 0. *)
Definition zeroTimeoutRun :=
  forward afterSpace foxHost (newManager (mkConfig (Some 0) None (Some false))).

(** backward from the end of the row of x. *)
Definition rowBackRun := backward afterSpace rowHost freshManager.

(** forward from the start of the row of x. *)
Definition rowForwardRun := forward afterSpace rowStartHost freshManager.

(** forward from the end of the row of x: nothing is found, the search
    character x and the forward direction are stored. *)
Definition rowMissRun := forward afterSpace rowHost freshManager.

(** repeatOpposite after it, still at the end of the row. *)
Definition rowOppositeRun :=
  repeatOpposite afterSpace rowHost (fst (fst rowMissRun)).

(** forward with the cursor on the letter looked for. *)
Definition oneRun := forward afterSpace oneHost freshManager.

(** backward on the six lines. *)
Definition sixRun := backward afterSpace sixHost freshManager.

(** The defaults with jumpOnTrigger and the word-boundary filter switched
    off. *)
Definition stayConfig : Config := mkConfig None (Some false) (Some false).

(** forward, search character o, on the three lines, without the jump to
    the first match. *)
Definition stayRun := forward afterSpace foxHost (newManager stayConfig).

(** The letter a, the euro sign, an emoji of two code units, the letter e
    with an acute accent. *)
Definition mixedText : jsstring := [97; 8364; 55357; 56832; 233]%N.

(** ** Strings, lists and maps *)

Lemma str_eqb_eq (a b : jsstring) : str_eqb a b = true <-> a = b.
Proof.
  revert b; induction a as [|x a IH]; intros [|y b]; simpl;
    try (split; [discriminate | discriminate]); try tauto.
  rewrite andb_true_iff, N.eqb_eq, IH.
  split; [intros [-> ->]; reflexivity | intros E; inversion E; auto].
Qed.

Lemma str_eqb_refl (a : jsstring) : str_eqb a a = true.
Proof. apply str_eqb_eq; reflexivity. Qed.

Lemma str_eqb_neq (a b : jsstring) : a <> b -> str_eqb a b = false.
Proof.
  intros H; destruct (str_eqb a b) eqn:E; [|reflexivity].
  apply str_eqb_eq in E; contradiction.
Qed.

Lemma skipn_nth_cons {A : Type} (l : list A) (i : nat) (x : A) :
  nth_error l i = Some x -> skipn i l = x :: skipn (S i) l.
Proof.
  revert i; induction l as [|y l IH]; intros [|i] H; simpl in *;
    try discriminate.
  - inversion H; reflexivity.
  - apply IH; assumption.
Qed.

Lemma firstn_nth_snoc {A : Type} (l : list A) (i : nat) (x : A) :
  nth_error l i = Some x -> firstn (S i) l = firstn i l ++ [x].
Proof.
  revert i; induction l as [|y l IH]; intros [|i] H; simpl in *;
    try discriminate.
  - inversion H; reflexivity.
  - f_equal; apply IH; assumption.
Qed.

Lemma NoDup_nth_fresh {A : Type} (l : list A) (i : nat) (x : A) :
  NoDup l -> nth_error l i = Some x -> ~ In x (firstn i l).
Proof.
  intros ND H.
  rewrite <- (firstn_skipn i l), (skipn_nth_cons l i x H) in ND.
  apply NoDup_remove_2 in ND.
  intros Hin; apply ND, in_or_app; left; assumption.
Qed.

Module JsMapFacts.
Import JsMap.

Lemma set_fresh {V : Type} (k : jsstring) (v : V) (m : t V) :
  ~ In k (keys m) -> set k v m = m ++ [(k, v)].
Proof.
  induction m as [|[k' v'] m IH]; simpl; intros H; [reflexivity|].
  rewrite str_eqb_neq by (intros E; apply H; left; assumption).
  f_equal; apply IH; intros Hin; apply H; right; assumption.
Qed.

Lemma keys_set_incl {V : Type} (k : jsstring) (v : V) (m : t V) :
  incl (keys (set k v m)) (k :: keys m).
Proof.
  induction m as [|[k' v'] m IH]; simpl.
  - apply incl_refl.
  - destruct (str_eqb k' k) eqn:E; simpl.
    + apply str_eqb_eq in E; subst k'.
      intros x [<-|Hx]; [left; reflexivity | right; right; assumption].
    + intros x [<-|Hx]; [right; left; reflexivity|].
      destruct (IH x Hx) as [<-|Hin]; [left; reflexivity|].
      right; right; assumption.
Qed.

Lemma get_In_keys {V : Type} (k : jsstring) (v : V) (m : t V) :
  get k m = Some v -> In k (keys m).
Proof.
  induction m as [|[k' v'] m IH]; simpl; [discriminate|].
  destruct (str_eqb k' k) eqn:E.
  - apply str_eqb_eq in E; intros _; left; assumption.
  - intros H; right; apply IH; assumption.
Qed.

Lemma get_not_in {V : Type} (k : jsstring) (m : t V) :
  ~ In k (keys m) -> get k m = None.
Proof.
  intros H; destruct (get k m) as [v|] eqn:E; [|reflexivity].
  exfalso; apply H; eapply get_In_keys; eassumption.
Qed.

Lemma get_nth {V : Type} (m : t V) (i : nat) (k : jsstring) (v : V) :
  NoDup (keys m) -> nth_error m i = Some (k, v) -> get k m = Some v.
Proof.
  revert i; induction m as [|[k' v'] m IH]; intros [|i] ND H; simpl in *;
    try discriminate.
  - inversion H; subst; rewrite str_eqb_refl; reflexivity.
  - inversion ND as [|? ? Hn ND']; subst.
    rewrite str_eqb_neq.
    + eapply IH; eassumption.
    + intros ->; apply Hn.
      apply nth_error_In in H.
      change k with (fst (k, v)); apply in_map; assumption.
Qed.
End JsMapFacts.

(** ** The alphabet *)

Lemma characters_length : length characters = 38%nat.
Proof. reflexivity. Qed.

Lemma characters_truthy (ch : jsstring) : In ch characters -> truthy ch = true.
Proof.
  assert (H : forallb truthy characters = true) by reflexivity.
  rewrite forallb_forall in H; apply H.
Qed.

Lemma characters_NoDup : NoDup characters.
Proof.
  vm_compute.
  repeat (constructor;
          [intros H; repeat (destruct H as [H|H]; [discriminate H|]); exact H
          |]).
  constructor.
Qed.

Lemma repeatGlyph_not_label : ~ In repeatGlyph characters.
Proof.
  intros H; vm_compute in H.
  repeat (destruct H as [H|H]; [discriminate H|]).
  exact H.
Qed.

Lemma escape_not_label : ~ In escape characters.
Proof.
  intros H; vm_compute in H.
  repeat (destruct H as [H|H]; [discriminate H|]).
  exact H.
Qed.

(** ** The label loop *)

Lemma labelEntries_length (cs : list jsstring) (screen : list (Z * Z)) :
  length (labelEntries cs screen) = Nat.min (length cs) (length screen).
Proof. unfold labelEntries; rewrite length_map, length_combine; reflexivity. Qed.

Lemma labelEntries_keys (cs : list jsstring) (screen : list (Z * Z)) :
  JsMap.keys (labelEntries cs screen) = firstn (length screen) cs.
Proof.
  unfold JsMap.keys, labelEntries; rewrite map_map; simpl.
  revert screen; induction cs as [|c cs IH]; intros [|q screen]; simpl;
    try reflexivity.
  f_equal; apply IH.
Qed.

Lemma labelEntries_nth (cs : list jsstring) (screen : list (Z * Z))
    (i : nat) (ch : jsstring) (q : Z * Z) :
  nth_error cs i = Some ch -> nth_error screen i = Some q ->
  nth_error (labelEntries cs screen) i = Some (ch, mkCharacter q ch).
Proof.
  unfold labelEntries.
  revert screen i; induction cs as [|c cs IH]; intros [|q' screen] [|i] Hc Hq;
    simpl in *; try discriminate.
  - inversion Hc; inversion Hq; reflexivity.
  - apply IH; assumption.
Qed.

Lemma labelEntries_keys_incl (cs : list jsstring) (screen : list (Z * Z)) :
  incl (JsMap.keys (labelEntries cs screen)) cs.
Proof.
  rewrite labelEntries_keys; intros x Hx.
  rewrite <- (firstn_skipn (length screen) cs); apply in_or_app; left; exact Hx.
Qed.

Lemma labelEntries_NoDup (screen : list (Z * Z)) :
  NoDup (JsMap.keys (labelEntries characters screen)).
Proof.
  rewrite labelEntries_keys.
  pose proof characters_NoDup as ND.
  rewrite <- (firstn_skipn (length screen) characters) in ND.
  apply NoDup_app_remove_r in ND; exact ND.
Qed.

Lemma screenPos_in_range (isFwd : bool) (v : View) (lines : list jsstring)
    (p : Position) :
  (pos_line p < length lines)%nat ->
  exists q, screenPos isFwd v lines p = Some q.
Proof.
  intros H; unfold screenPos.
  destruct (nth_error lines (pos_line p)) as [content|] eqn:E.
  - eexists; reflexivity.
  - apply nth_error_None in E; lia.
Qed.

Lemma screen_exists (isFwd : bool) (v : View) (lines : list jsstring)
    (positions : list Position) :
  (forall p, In p positions -> (pos_line p < length lines)%nat) ->
  exists screen,
    Forall2 (fun p q => screenPos isFwd v lines p = Some q) positions screen.
Proof.
  induction positions as [|p positions IH]; intros H.
  - exists []; constructor.
  - destruct (screenPos_in_range isFwd v lines p) as [q Hq];
      [apply H; left; reflexivity|].
    destruct IH as [screen Hs]; [intros p' Hp'; apply H; right; exact Hp'|].
    exists (q :: screen); constructor; assumption.
Qed.

(** The loop started at index [i] with a table holding the first [i]
    labels: it runs to its end, appends the labels from [i] on and sends the
    candidates from index 38 on to the remainder list. *)
Lemma labelLoop_run (isFwd : bool) (v : View) (lines : list jsstring)
    (positions : list Position) (screen : list (Z * Z)) :
  Forall2 (fun p q => screenPos isFwd v lines p = Some q) positions screen ->
  forall (i : nat) (pm : JsMap.t Character) (remains : list (Z * Z)),
  JsMap.keys pm = firstn i characters ->
  labelLoop isFwd v lines i positions pm remains
  = (pm ++ labelEntries (skipn i characters) screen,
     remains ++ skipn (38 - i) screen, true).
Proof.
  induction 1 as [|p q positions screen Hq _ IH]; intros i pm remains Hk.
  - simpl. unfold labelEntries; rewrite combine_nil, skipn_nil, !app_nil_r.
    reflexivity.
  - cbn [labelLoop]. rewrite Hq. destruct q as [line col].
    destruct (nth_error characters i) as [ch|] eqn:E.
    + assert (Hi : (i < 38)%nat).
      { rewrite <- characters_length; apply nth_error_Some; congruence. }
      rewrite (characters_truthy ch) by (eapply nth_error_In; eassumption).
      rewrite JsMapFacts.set_fresh.
      2:{ rewrite Hk; apply NoDup_nth_fresh; [apply characters_NoDup|exact E]. }
      rewrite IH.
      2:{ unfold JsMap.keys in *; rewrite map_app, Hk; cbn [map fst].
          symmetry; apply firstn_nth_snoc; exact E. }
      rewrite (skipn_nth_cons characters i ch E).
      replace (38 - i)%nat with (S (38 - S i)) by lia.
      unfold labelEntries; cbn [combine map fst snd skipn].
      rewrite <- app_assoc; reflexivity.
    + assert (Hi : (38 <= i)%nat).
      { rewrite <- characters_length; apply nth_error_None; exact E. }
      rewrite IH.
      2:{ rewrite Hk, !firstn_all2 by (rewrite characters_length; lia).
          reflexivity. }
      rewrite (@skipn_all2 _ i characters),
              (@skipn_all2 _ (S i) characters)
        by (rewrite characters_length; lia).
      replace (38 - i)%nat with 0%nat by lia.
      replace (38 - S i)%nat with 0%nat by lia.
      unfold labelEntries; cbn [combine map skipn].
      rewrite <- app_assoc; reflexivity.
Qed.

(** The loop only ever writes keys of the alphabet, also when it throws. *)
Lemma labelLoop_keys (isFwd : bool) (v : View) (lines : list jsstring)
    (positions : list Position) :
  forall (i : nat) (pm : JsMap.t Character) (remains : list (Z * Z)),
  incl (JsMap.keys pm) characters ->
  incl (JsMap.keys (fst (fst (labelLoop isFwd v lines i positions pm remains))))
       characters.
Proof.
  induction positions as [|p positions IH]; intros i pm remains Hk; simpl;
    [exact Hk|].
  destruct (screenPos isFwd v lines p) as [[line col]|]; [|exact Hk].
  destruct (nth_error characters i) as [ch|] eqn:E; [|apply IH; exact Hk].
  destruct (truthy ch); [|apply IH; exact Hk].
  apply IH.
  intros x Hx; apply JsMapFacts.keys_set_incl in Hx.
  destruct Hx as [<-|Hx]; [eapply nth_error_In; eassumption | apply Hk, Hx].
Qed.

(** C1.  The label loop gives the i-th candidate the i-th symbol of the
    alphabet of 38 symbols, for every i below 38, and appends every
    candidate from index 38 on, in the original order, to the remainder
    list; with more than 38 candidates exactly 38 labels are assigned and the
    remainder list has the length of the sequence minus 38.  (The candidates
    index the scanned lines, as the finder guarantees.) *)
Theorem label_assignment (isFwd : bool) (v : View) (lines : list jsstring)
    (positions : list Position) :
  (forall p, In p positions -> (pos_line p < length lines)%nat) ->
  exists (screen : list (Z * Z)) (pm : JsMap.t Character)
         (remains : list (Z * Z)),
    Forall2 (fun p q => screenPos isFwd v lines p = Some q) positions screen
    /\ labelLoop isFwd v lines 0 positions JsMap.empty [] = (pm, remains, true)
    /\ length characters = 38%nat
    /\ (forall i q, (i < 38)%nat -> nth_error screen i = Some q ->
        exists ch, nth_error characters i = Some ch
                   /\ nth_error pm i = Some (ch, mkCharacter q ch)
                   /\ JsMap.get ch pm = Some (mkCharacter q ch))
    /\ JsMap.size pm = Nat.min 38 (length positions)
    /\ remains = skipn 38 screen
    /\ ((38 < length positions)%nat ->
        JsMap.size pm = 38%nat
        /\ length remains = (length positions - 38)%nat).
Proof.
  intros Hrange.
  destruct (screen_exists isFwd v lines positions Hrange) as [screen Hs].
  pose proof (Forall2_length Hs) as Hlen.
  exists screen, (labelEntries characters screen), (skipn 38 screen).
  split; [exact Hs|].
  split; [rewrite (labelLoop_run _ _ _ _ _ Hs 0 JsMap.empty []) by reflexivity;
          reflexivity|].
  split; [reflexivity|].
  split.
  { intros i q Hi Hq.
    destruct (nth_error characters i) as [ch|] eqn:E.
    2:{ apply nth_error_None in E; rewrite characters_length in E; lia. }
    exists ch; split; [reflexivity|].
    pose proof (labelEntries_nth characters screen i ch q E Hq) as Hn.
    split; [exact Hn|].
    eapply JsMapFacts.get_nth; [apply labelEntries_NoDup | exact Hn]. }
  unfold JsMap.size; rewrite labelEntries_length, characters_length, <- Hlen.
  split; [reflexivity|].
  split; [reflexivity|].
  intros Hgt; split; [lia|].
  rewrite length_skipn; lia.
Qed.

(** ** Sorted lists *)

Lemma StronglySorted_app {A : Type} (R : A -> A -> Prop) (l1 l2 : list A) :
  StronglySorted R l1 -> StronglySorted R l2 ->
  (forall x y, In x l1 -> In y l2 -> R x y) ->
  StronglySorted R (l1 ++ l2).
Proof.
  induction l1 as [|a l1 IH]; intros S1 S2 H; simpl; [exact S2|].
  inversion S1 as [|? ? S1' F1]; subst.
  constructor.
  - apply IH; [exact S1' | exact S2 |].
    intros x y Hx Hy; apply H; [right; exact Hx | exact Hy].
  - apply Forall_app; split; [exact F1|].
    apply Forall_forall; intros y Hy; apply H; [left; reflexivity | exact Hy].
Qed.

Lemma StronglySorted_rev {A : Type} (R : A -> A -> Prop) (l : list A) :
  StronglySorted R l -> StronglySorted (fun a b => R b a) (rev l).
Proof.
  induction 1 as [|a l S IH F]; simpl; [constructor|].
  apply StronglySorted_app; [exact IH | repeat constructor |].
  intros x y Hx [<-|[]].
  rewrite Forall_forall in F; apply F, in_rev; exact Hx.
Qed.

Lemma StronglySorted_seq (a n : nat) : StronglySorted lt (seq a n).
Proof.
  revert a; induction n as [|n IH]; intros a; simpl; constructor.
  - apply IH.
  - apply Forall_forall; intros x Hx; apply in_seq in Hx; lia.
Qed.

Lemma StronglySorted_filter {A : Type} (R : A -> A -> Prop) (f : A -> bool)
    (l : list A) :
  StronglySorted R l -> StronglySorted R (filter f l).
Proof.
  induction 1 as [|a l S IH F]; simpl; [constructor|].
  destruct (f a); [|exact IH].
  constructor; [exact IH|].
  rewrite Forall_forall in *; intros x Hx; apply F.
  apply filter_In in Hx; tauto.
Qed.

Lemma StronglySorted_map {A B : Type} (R : A -> A -> Prop)
    (R' : B -> B -> Prop) (f : A -> B) (l : list A) :
  (forall x y, R x y -> R' (f x) (f y)) ->
  StronglySorted R l -> StronglySorted R' (map f l).
Proof.
  intros Hf; induction 1 as [|a l S IH F]; simpl; constructor; [exact IH|].
  rewrite Forall_forall in *; intros y Hy.
  apply in_map_iff in Hy; destruct Hy as [x [<- Hx]]; apply Hf, F, Hx.
Qed.

(** ** JavaScript slices on well-formed indices *)

Lemma jsSlice_prefix {A : Type} (l : list A) (n : Z) :
  0 <= n -> jsSlice l 0 n = firstn (Z.to_nat n) l.
Proof.
  intros Hn; unfold jsSlice, sliceIndex.
  rewrite Z.ltb_irrefl.
  destruct (n <? 0) eqn:E; [apply Z.ltb_lt in E; lia|].
  rewrite (Z.min_l 0) by lia; simpl skipn.
  rewrite Z.sub_0_r.
  destruct (Z.le_ge_cases n (Z.of_nat (length l))) as [Hle|Hge].
  - rewrite Z.min_l by lia; reflexivity.
  - rewrite Z.min_r by lia.
    rewrite Nat2Z.id, !firstn_all2 by lia; reflexivity.
Qed.

Lemma jsSliceFrom_suffix {A : Type} (l : list A) (k : Z) :
  0 <= k -> jsSliceFrom l k = skipn (Z.to_nat k) l.
Proof.
  intros Hk; unfold jsSliceFrom, jsSlice, sliceIndex.
  destruct (k <? 0) eqn:E; [apply Z.ltb_lt in E; lia|].
  destruct (Z.of_nat (length l) <? 0) eqn:E'; [apply Z.ltb_lt in E'; lia|].
  rewrite (Z.min_l (Z.of_nat (length l))) by lia.
  destruct (Z.le_ge_cases k (Z.of_nat (length l))) as [Hle|Hge].
  - rewrite Z.min_l by lia.
    apply firstn_all2; rewrite length_skipn; lia.
  - rewrite Z.min_r by lia.
    rewrite Z.sub_diag, Nat2Z.id; simpl.
    symmetry; apply skipn_all2; lia.
Qed.

(** ** [cancel] *)

Lemma cancel_state (m : Manager) : fst (cancel m) = set_matchIds [] m.
Proof.
  unfold cancel; destruct m as [ids pm t c f j w r]; simpl.
  destruct ids; reflexivity.
Qed.

Lemma cancel_pair (m : Manager) : cancel m = (set_matchIds [] m, snd (cancel m)).
Proof. rewrite <- cancel_state; destruct (cancel m); reflexivity. Qed.

(** C9.  Invoking cancellation twice in a row is the same as invoking it
    once: in every state of the manager (markers shown or not) the second
    invocation returns at once, sends no request to the editor, so no clear
    call, and leaves the state as it is; no step of [cancel] can throw. *)
Theorem cancel_idempotent (m : Manager) :
  cancel (fst (cancel m)) = (fst (cancel m), [])
  /\ matchIds (fst (cancel m)) = []
  /\ (matchIds m = [] -> cancel m = (m, [])).
Proof.
  split; [|split].
  - rewrite cancel_state; reflexivity.
  - rewrite cancel_state; reflexivity.
  - intros H; unfold cancel; rewrite H; reflexivity.
Qed.

Section Properties.

Variable ws : jsstring -> nat -> bool.

(** ** The position finder *)

Lemma isCandidate_true (c : jsstring) (wj : bool) (off : Z) (i : nat)
    (text : jsstring) (j : nat) :
  isCandidate ws c wj off i text j = true <->
  occursAt c text j = true
  /\ (wj = true -> ws text j = true)
  /\ (i = 0%nat -> off <= Z.of_nat j).
Proof.
  unfold isCandidate.
  rewrite !andb_true_iff, !orb_true_iff, !negb_true_iff, Z.leb_le,
    Nat.eqb_neq.
  split.
  - intros [[Ho Hw] Hi]; split; [exact Ho|]; split.
    + intros ->; destruct Hw as [Hw|Hw]; [discriminate Hw | exact Hw].
    + intros ->; destruct Hi as [Hi|Hi]; [contradiction | exact Hi].
  - intros [Ho [Hw Hi]]; split; [split; [exact Ho|]|].
    + destruct wj; [right; apply Hw; reflexivity | left; reflexivity].
    + destruct i; [right; apply Hi; reflexivity | left; discriminate].
Qed.

Lemma linePositions_In (c : jsstring) (wj : bool) (off : Z) (i : nat)
    (text : jsstring) (p : Position) :
  In p (linePositions ws c wj off i text) <->
  pos_line p = i
  /\ (pos_character p < length text)%nat
  /\ isCandidate ws c wj off i text (pos_character p) = true.
Proof.
  unfold linePositions; rewrite in_map_iff; split.
  - intros [j [<- Hj]]; apply filter_In in Hj; destruct Hj as [Hs Hc].
    apply in_seq in Hs; simpl; repeat split; [lia | exact Hc].
  - intros [Hl [Hlt Hc]]; exists (pos_character p); split.
    + destruct p; simpl in *; subst; reflexivity.
    + apply filter_In; split; [apply in_seq; lia | exact Hc].
Qed.

Lemma scanFrom_In (c : jsstring) (wj : bool) (off : Z)
    (lines : list jsstring) :
  forall (i : nat) (p : Position),
  In p (scanFrom ws c wj off i lines) <->
  (i <= pos_line p)%nat
  /\ exists text,
       nth_error lines (pos_line p - i) = Some text
       /\ (pos_character p < length text)%nat
       /\ isCandidate ws c wj off (pos_line p) text (pos_character p) = true.
Proof.
  induction lines as [|text lines IH]; intros i p; simpl.
  - split; [intros [] | intros [_ [t [H _]]]].
    destruct (pos_line p - i)%nat; discriminate H.
  - rewrite in_app_iff, linePositions_In, IH; split.
    + intros [[Hl [Hlt Hc]] | [Hle [t [Hn Hr]]]].
      * subst i; split; [lia|]; exists text.
        rewrite Nat.sub_diag; simpl; auto.
      * split; [lia|]; exists t.
        replace (pos_line p - i)%nat with (S (pos_line p - S i)) by lia.
        simpl; auto.
    + intros [Hle [t [Hn [Hlt Hc]]]].
      destruct (Nat.eq_dec (pos_line p) i) as [E|NE].
      * left; subst i; rewrite Nat.sub_diag in Hn; simpl in Hn.
        inversion Hn; subst t; auto.
      * right; split; [lia|]; exists t.
        replace (pos_line p - i)%nat with (S (pos_line p - S i)) in Hn by lia.
        simpl in Hn; auto.
Qed.

Lemma getPositions_In (c : jsstring) (lines : list jsstring) (wj : bool)
    (off : Z) (p : Position) :
  In p (getPositions ws c lines wj off) <->
  exists text,
    nth_error lines (pos_line p) = Some text
    /\ (pos_character p < length text)%nat
    /\ isCandidate ws c wj off (pos_line p) text (pos_character p) = true.
Proof.
  unfold getPositions; rewrite scanFrom_In, Nat.sub_0_r; split.
  - intros [_ H]; exact H.
  - intros H; split; [lia | exact H].
Qed.

Lemma getPositions_in_range (c : jsstring) (lines : list jsstring)
    (wj : bool) (off : Z) (p : Position) :
  In p (getPositions ws c lines wj off) -> (pos_line p < length lines)%nat.
Proof.
  rewrite getPositions_In; intros [text [Hn _]].
  apply nth_error_Some; congruence.
Qed.

Lemma linePositions_sorted (c : jsstring) (wj : bool) (off : Z) (i : nat)
    (text : jsstring) :
  StronglySorted posLt (linePositions ws c wj off i text).
Proof.
  unfold linePositions.
  apply StronglySorted_map with (R := lt).
  - intros x y Hxy; right; simpl; split; [reflexivity | exact Hxy].
  - apply StronglySorted_filter, StronglySorted_seq.
Qed.

Lemma scanFrom_sorted (c : jsstring) (wj : bool) (off : Z)
    (lines : list jsstring) :
  forall i, StronglySorted posLt (scanFrom ws c wj off i lines).
Proof.
  induction lines as [|text lines IH]; intros i; simpl; [constructor|].
  apply StronglySorted_app; [apply linePositions_sorted | apply IH |].
  intros x y Hx Hy.
  apply linePositions_In in Hx; apply scanFrom_In in Hy.
  left; destruct Hx as [-> _]; destruct Hy as [Hle _]; lia.
Qed.

Lemma candidates_In (isFwd : bool) (c : jsstring) (v : View) (wj : bool)
    (p : Position) :
  In p (candidates ws isFwd c v wj) <->
  In p (getPositions ws c (scanLines isFwd v) wj (scanOffset isFwd v)).
Proof.
  unfold candidates; destruct (negb isFwd); [|reflexivity].
  symmetry; apply in_rev.
Qed.

Lemma candidates_length (isFwd : bool) (c : jsstring) (v : View) (wj : bool) :
  length (candidates ws isFwd c v wj)
  = length (getPositions ws c (scanLines isFwd v) wj (scanOffset isFwd v)).
Proof.
  unfold candidates; destruct (negb isFwd); [apply length_rev | reflexivity].
Qed.

Lemma candidates_in_range (isFwd : bool) (c : jsstring) (v : View)
    (wj : bool) (p : Position) :
  In p (candidates ws isFwd c v wj) ->
  (pos_line p < length (scanLines isFwd v))%nat.
Proof. rewrite candidates_In; apply getPositions_in_range. Qed.

(** ** The shape of a call of [jump] *)

(** With the finder above no candidate indexes a missing line, so [jump]
    never throws: it ends at one of its four returns or starts
    [getCharacter]. *)
Lemma jump_shape (h : Host) (isFwd : bool) (chr : option jsstring)
    (m0 : Manager) (v : View) :
  batch1 h = inr v ->
  let c := searchCharacter h chr in
  let m2 := afterPrompt h isFwd chr m0 in
  let lines := scanLines isFwd v in
  match candidates ws isFwd c v (wordJump m0) with
  | [] => jump ws h isFwd chr m0 = (m2, promptEvents chr, NoMatch)
  | first :: rest =>
      exists positions currpos ev screen,
        firstJump h isFwd v lines (first :: rest) (jumpOnTrigger m0)
        = Some (positions, currpos, ev)
        /\ Forall2 (fun p q => screenPos isFwd v lines p = Some q)
                   positions screen
        /\ jump ws h isFwd chr m0
           = match positions with
             | [] => (m2, promptEvents chr ++ ev, NoLabels)
             | _ :: _ =>
                 showLabels h isFwd c lines m2 (promptEvents chr ++ ev)
                            positions currpos screen
             end
  end.
Proof.
  intros Hb c m2 lines.
  assert (Hw : wordJump m2 = wordJump m0).
  { unfold m2, afterPrompt; destruct (negb (truthy_opt chr)); reflexivity. }
  assert (Hj : jumpOnTrigger m2 = jumpOnTrigger m0).
  { unfold m2, afterPrompt; destruct (negb (truthy_opt chr)); reflexivity. }
  assert (Hp : positionMap (set_positionMap JsMap.empty m2) = JsMap.empty)
    by reflexivity.
  unfold jump; rewrite Hb.
  change (if negb (truthy_opt chr)
          then set_search isFwd (searchCharacter h chr)
                 (set_positionMap JsMap.empty m0)
          else set_positionMap JsMap.empty m0) with m2.
  change (if negb (truthy_opt chr) then [Batch firstBatch] ++ [GetChar]
          else [Batch firstBatch]) with (promptEvents chr).
  cbv zeta. fold c. rewrite Hw, Hj.
  pose proof (candidates_length isFwd c v (wordJump m0)) as Hlen.
  pose proof (candidates_in_range isFwd c v (wordJump m0)) as Hrange.
  change (if negb isFwd
          then rev (getPositions ws c (scanLines isFwd v) (wordJump m0)
                      (scanOffset isFwd v))
          else getPositions ws c (scanLines isFwd v) (wordJump m0)
                 (scanOffset isFwd v))
    with (candidates ws isFwd c v (wordJump m0)).
  rewrite <- Hlen.
  destruct (candidates ws isFwd c v (wordJump m0)) as [|first rest];
    [reflexivity|].
  cbn [length Nat.eqb].
  assert (Hfj : exists positions currpos ev,
             firstJump h isFwd v (scanLines isFwd v) (first :: rest)
                       (jumpOnTrigger m0) = Some (positions, currpos, ev)
             /\ incl positions (first :: rest)).
  { unfold firstJump; destruct (jumpOnTrigger m0).
    - destruct (screenPos_in_range isFwd v (scanLines isFwd v) first) as [q Hq];
        [apply Hrange; left; reflexivity|].
      rewrite Hq; do 3 eexists; split; [reflexivity|].
      apply incl_tl, incl_refl.
    - do 3 eexists; split; [reflexivity | apply incl_refl]. }
  destruct Hfj as [positions [currpos [ev [Hfj Hincl]]]].
  destruct (screen_exists isFwd v (scanLines isFwd v) positions) as [screen Hs];
    [intros p Hp'; apply Hrange, Hincl, Hp'|].
  exists positions, currpos, ev, screen.
  split; [exact Hfj|]; split; [exact Hs|].
  rewrite Hfj.
  destruct positions as [|p positions]; [reflexivity|].
  cbn [length Nat.eqb]. rewrite Hp.
  rewrite (labelLoop_run _ _ _ _ _ Hs 0 JsMap.empty []) by reflexivity.
  reflexivity.
Qed.

Lemma Forall2_functional {A B : Type} (f : A -> option B) (l : list A)
    (l1 l2 : list B) :
  Forall2 (fun p q => f p = Some q) l l1 ->
  Forall2 (fun p q => f p = Some q) l l2 -> l1 = l2.
Proof.
  intros H; revert l2; induction H as [|p q l l1 Hq _ IH]; intros l2 H2;
    inversion H2; subst; [reflexivity|].
  f_equal; [congruence | apply IH; assumption].
Qed.

(** A call of [jump] that starts [getCharacter] went through the label
    loop with at least one candidate. *)
Lemma jump_awaiting (h : Host) (isFwd : bool) (chr : option jsstring)
    (m0 m : Manager) (evs : list Event) (ss : Session) :
  jump ws h isFwd chr m0 = (m, evs, Awaiting ss) ->
  exists v positions currpos ev screen,
    batch1 h = inr v
    /\ firstJump h isFwd v (scanLines isFwd v)
         (candidates ws isFwd (searchCharacter h chr) v (wordJump m0))
         (jumpOnTrigger m0) = Some (positions, currpos, ev)
    /\ positions <> []
    /\ Forall2 (fun p q => screenPos isFwd v (scanLines isFwd v) p = Some q)
               positions screen
    /\ snd (batch2 h) = None
    /\ m = set_matchIds (fst (batch2 h))
             (set_repeatPosition (hd_error (skipn 38 screen))
                (set_positionMap (labelEntries characters screen)
                   (set_positionMap JsMap.empty
                      (afterPrompt h isFwd chr m0))))
    /\ evs = (promptEvents chr ++ ev)
             ++ [Batch (markerBatch (labelEntries characters screen) currpos
                                    (skipn 38 screen))]
    /\ ss = mkSession isFwd (searchCharacter h chr) (scanLines isFwd v)
                      positions currpos (skipn 38 screen).
Proof.
  intros H.
  destruct (batch1 h) as [err|v] eqn:Hb.
  { unfold jump in H; rewrite Hb in H; discriminate H. }
  pose proof (jump_shape h isFwd chr m0 v Hb) as Hs; cbv zeta in Hs.
  destruct (candidates ws isFwd (searchCharacter h chr) v (wordJump m0))
    as [|first rest] eqn:Hc.
  { rewrite Hs in H; discriminate H. }
  destruct Hs as [positions [currpos [ev [screen [Hfj [Hsc Hj]]]]]].
  rewrite Hj in H.
  destruct positions as [|p positions]; [discriminate H|].
  unfold showLabels in H.
  destruct (snd (batch2 h)) as [e|] eqn:He; [discriminate H|].
  injection H as Hm Hev Hss; subst m evs ss.
  exists v, (p :: positions), currpos, ev, screen.
  split; [reflexivity|]; split; [rewrite Hc; exact Hfj|].
  split; [discriminate|].
  split; [exact Hsc|]; repeat split.
Qed.

(** ** [getCharacter] *)

Lemma getCharacter_positionMap (m : Manager) (r : Race) :
  positionMap (fst (fst (getCharacter m r))) = positionMap m.
Proof.
  unfold getCharacter.
  destruct r as [ch|ch].
  - rewrite (cancel_pair m).
    destruct (if str_eqb ch repeatGlyph then repeatPosition m else None);
      reflexivity.
  - rewrite (cancel_pair m), (cancel_pair (set_matchIds [] m)).
    destruct (if str_eqb ch repeatGlyph
              then repeatPosition (set_matchIds [] m) else None);
      reflexivity.
Qed.

Lemma getCharacter_repeatPosition (m : Manager) (r : Race) :
  repeatPosition (fst (fst (getCharacter m r))) = repeatPosition m.
Proof.
  unfold getCharacter.
  destruct r as [ch|ch].
  - rewrite (cancel_pair m).
    destruct (if str_eqb ch repeatGlyph then repeatPosition m else None);
      reflexivity.
  - rewrite (cancel_pair m), (cancel_pair (set_matchIds [] m)).
    destruct (if str_eqb ch repeatGlyph
              then repeatPosition (set_matchIds [] m) else None);
      reflexivity.
Qed.

(** ** The keys of the label table *)

Lemma jump_keys (h : Host) (isFwd : bool) (chr : option jsstring)
    (m0 : Manager) :
  incl (JsMap.keys (positionMap (fst (fst (jump ws h isFwd chr m0)))))
       characters.
Proof.
  assert (Hempty : forall m, positionMap m = JsMap.empty ->
                             incl (JsMap.keys (positionMap m)) characters).
  { intros m ->; intros x []. }
  assert (Hm2 : positionMap (afterPrompt h isFwd chr m0) = JsMap.empty).
  { unfold afterPrompt; destruct (negb (truthy_opt chr)); reflexivity. }
  destruct (batch1 h) as [err|v] eqn:Hb.
  { unfold jump; rewrite Hb; apply Hempty; reflexivity. }
  pose proof (jump_shape h isFwd chr m0 v Hb) as Hs; cbv zeta in Hs.
  destruct (candidates ws isFwd (searchCharacter h chr) v (wordJump m0))
    as [|first rest].
  { rewrite Hs; apply Hempty, Hm2. }
  destruct Hs as [positions [currpos [ev [screen [_ [_ Hj]]]]]].
  rewrite Hj.
  destruct positions as [|p positions]; [apply Hempty, Hm2|].
  unfold showLabels.
  destruct (snd (batch2 h)); cbn [fst positionMap set_matchIds
    set_repeatPosition set_positionMap]; apply labelEntries_keys_incl.
Qed.

Lemma reachable_keys (m : Manager) :
  reachable ws m -> incl (JsMap.keys (positionMap m)) characters.
Proof.
  induction 1 as [config|h isFwd chr m _ _|m r _ IH|m _ IH].
  - intros x [].
  - apply jump_keys.
  - rewrite getCharacter_positionMap; exact IH.
  - rewrite cancel_state; exact IH.
Qed.

Lemma cancel_events (m : Manager) :
  snd (cancel m)
  = if (length (matchIds m) =? 0)%nat then [] else [clearBatch (matchIds m)].
Proof. unfold cancel; destruct (length (matchIds m) =? 0)%nat; reflexivity. Qed.


(** What a call of [jump] that starts [getCharacter] leaves in the
    manager. *)
Lemma awaiting_fields (h : Host) (isFwd : bool) (chr : option jsstring)
    (m0 m : Manager) (evs : list Event) (ss : Session) :
  jump ws h isFwd chr m0 = (m, evs, Awaiting ss) ->
  repeatPosition m = hd_error (s_remains ss)
  /\ s_isForward ss = isFwd
  /\ s_character ss = searchCharacter h chr
  /\ isForward m = isForward (afterPrompt h isFwd chr m0)
  /\ character m = character (afterPrompt h isFwd chr m0)
  /\ matchIds m = fst (batch2 h).
Proof.
  intros H; apply jump_awaiting in H.
  destruct H as [v [positions [currpos [ev [screen H]]]]].
  destruct H as [_ [_ [_ [_ [_ [-> [_ ->]]]]]]].
  repeat split.
Qed.


(** C3, amended.  For every configured timeout above 0 (a configured 0 is
    replaced by 1000): the timer is set once, with the configured duration;
    when it fires before a key arrives, an escape is fed to the editor and
    the markers are cleared; the capture then yields a key that is no label
    (the escape), and no request moves the cursor. *)
Theorem timer_expiry (m : Manager) (late : jsstring) :
  reachable ws m ->
  0 < timeout m ->
  ~ In late characters ->
  late <> repeatGlyph ->
  getCharacter m (TimerFirst late)
  = (set_matchIds [] m,
     [GetChar; SetTimeout (timeout m); Notify feedkeys_esc]
     ++ (if (length (matchIds m) =? 0)%nat then []
         else [clearBatch (matchIds m)]),
     None).
Proof.
  intros Hreach Ht Hlate Hglyph.
  unfold getCharacter.
  rewrite (cancel_pair m), cancel_events.
  rewrite (str_eqb_neq late repeatGlyph Hglyph).
  rewrite (cancel_pair (set_matchIds [] m)), cancel_events.
  rewrite JsMapFacts.get_not_in.
  2:{ intros Hin; apply Hlate.
      apply (reachable_keys m Hreach); exact Hin. }
  unfold timerDelay.
  destruct (timeout m =? 0) eqn:E; [apply Z.eqb_eq in E; lia|].
  cbn [matchIds set_matchIds length Nat.eqb app].
  destruct (length (matchIds m) =? 0)%nat; reflexivity.
Qed.

(** C4, amended.  Cancellation invoked on an active session clears all
    rendered markers, passing exactly the handles returned when they were
    created, and leaves the list of marker handles empty; the label table is
    not cleared by it and keeps the labels of the session. *)
Theorem cancel_clears_markers (h : Host) (isFwd : bool)
    (chr : option jsstring) (m0 m : Manager) (evs : list Event)
    (ss : Session) :
  jump ws h isFwd chr m0 = (m, evs, Awaiting ss) ->
  matchIds m <> [] ->
  matchIds m = fst (batch2 h)
  /\ cancel m = (set_matchIds [] m, [clearBatch (fst (batch2 h))])
  /\ matchIds (fst (cancel m)) = []
  /\ positionMap (fst (cancel m)) = positionMap m
  /\ positionMap m <> JsMap.empty.
Proof.
  intros Hj Hids.
  pose proof (awaiting_fields _ _ _ _ _ _ _ Hj) as [_ [_ [_ [_ [_ Hm]]]]].
  split; [exact Hm|].
  split.
  { rewrite (cancel_pair m), cancel_events, <- Hm.
    destruct (matchIds m); [contradiction Hids; reflexivity | reflexivity]. }
  rewrite cancel_state.
  split; [reflexivity|]; split; [reflexivity|].
  apply jump_awaiting in Hj.
  destruct Hj as [v [positions [currpos [ev [screen Hj]]]]].
  destruct Hj as [_ [_ [Hne [Hsc [_ [-> _]]]]]].
  cbn [positionMap set_matchIds set_repeatPosition set_positionMap].
  intros Hempty.
  apply (f_equal (@length _)) in Hempty.
  rewrite labelEntries_length, characters_length in Hempty.
  apply Forall2_length in Hsc.
  destruct positions; [contradiction Hne; reflexivity|].
  simpl in Hsc; rewrite <- Hsc in Hempty; discriminate Hempty.
Qed.

(** C5, amended.  For every forward jump the lines handed to the finder
    run from the cursor's own line to the end of the viewport, and the
    column offset applied to the first line is the cursor column plus one:
    the candidates on the cursor's line are the occurrences strictly after
    the cursor column, and an occurrence exactly at the cursor column is not
    a candidate. *)
Theorem forward_scan (v : View) (c : jsstring) (wj : bool) :
  let k := fst (v_cursor v) - (v_startline v - 1) in
  scanLines true v = jsSliceFrom (v_lines v) k
  /\ (0 <= k -> scanLines true v = skipn (Z.to_nat k) (v_lines v))
  /\ scanOffset true v = snd (v_cursor v) + 1
  /\ (forall i j,
        In (mkPosition i j) (candidates ws true c v wj) <->
        exists text,
          nth_error (scanLines true v) i = Some text
          /\ (j < length text)%nat
          /\ occursAt c text j = true
          /\ (wj = true -> ws text j = true)
          /\ (i = 0%nat -> snd (v_cursor v) < Z.of_nat j))
  /\ (forall j, Z.of_nat j = snd (v_cursor v) ->
                ~ In (mkPosition 0 j) (candidates ws true c v wj)).
Proof.
  intros k.
  assert (Hin : forall i j,
             In (mkPosition i j) (candidates ws true c v wj) <->
             exists text,
               nth_error (scanLines true v) i = Some text
               /\ (j < length text)%nat
               /\ occursAt c text j = true
               /\ (wj = true -> ws text j = true)
               /\ (i = 0%nat -> snd (v_cursor v) < Z.of_nat j)).
  { intros i j; rewrite candidates_In, getPositions_In.
    cbn [pos_line pos_character].
    split; intros [text [Hn [Hlt Hc]]]; exists text;
      (split; [exact Hn|]; split; [exact Hlt|]).
    - apply isCandidate_true in Hc; destruct Hc as [Ho [Hw Hi]].
      repeat split; try assumption.
      intros E; specialize (Hi E); unfold scanOffset in Hi; simpl in Hi; lia.
    - destruct Hc as [Ho [Hw Hi]]; apply isCandidate_true.
      repeat split; try assumption.
      intros E; specialize (Hi E); unfold scanOffset; simpl; lia. }
  split; [reflexivity|].
  split; [intros Hk; apply jsSliceFrom_suffix; exact Hk|].
  split; [reflexivity|].
  split; [exact Hin|].
  intros j Hj H; apply Hin in H.
  destruct H as [text [_ [_ [_ [_ Hi]]]]]; specialize (Hi eq_refl); lia.
Qed.

(** C6.  For every backward jump (cursor inside the viewport) the lines
    handed to the finder end at the cursor's line, of which only the text
    strictly before the cursor column is kept, and the candidates are put in
    reverse order of appearance: the match nearest before the cursor comes
    first in label priority. *)
Theorem backward_scan (v : View) (c : jsstring) (wj : bool) :
  let count := fst (v_cursor v) - (v_startline v - 1) + 1 in
  1 <= count <= Z.of_nat (length (v_lines v)) ->
  0 <= snd (v_cursor v) ->
  scanLines false v
  = firstn (Z.to_nat count - 1) (v_lines v)
    ++ [firstn (Z.to_nat (snd (v_cursor v))) (v_currline v)]
  /\ scanOffset false v = 0
  /\ candidates ws false c v wj
     = rev (getPositions ws c (scanLines false v) wj 0)
  /\ (forall p, In p (candidates ws false c v wj) ->
        (pos_line p <= Z.to_nat count - 1)%nat
        /\ (pos_line p = (Z.to_nat count - 1)%nat ->
            Z.of_nat (pos_character p) < snd (v_cursor v)))
  /\ StronglySorted (fun p q => posLt q p) (candidates ws false c v wj)
  /\ (forall first rest, candidates ws false c v wj = first :: rest ->
        forall q, In q rest -> posLt q first).
Proof.
  intros count Hcount Hcol.
  assert (Hlines : scanLines false v
                   = firstn (Z.to_nat count - 1) (v_lines v)
                     ++ [firstn (Z.to_nat (snd (v_cursor v))) (v_currline v)]).
  { unfold scanLines; cbn [negb]; fold count.
    rewrite !jsSlice_prefix by lia.
    replace (Z.to_nat count) with (S (Z.to_nat count - 1)) at 1 by lia.
    unfold setLast.
    destruct (firstn (S (Z.to_nat count - 1)) (v_lines v)) eqn:E.
    - apply (f_equal (@length _)) in E; rewrite length_firstn in E.
      cbn [length] in E; lia.
    - rewrite <- E, removelast_firstn by lia; reflexivity. }
  assert (Hsorted : StronglySorted (fun p q => posLt q p)
                      (candidates ws false c v wj)).
  { unfold candidates; cbn [negb].
    apply StronglySorted_rev, scanFrom_sorted. }
  split; [exact Hlines|].
  split; [reflexivity|].
  split; [reflexivity|].
  split.
  { intros p Hp; apply candidates_In, getPositions_In in Hp.
    destruct Hp as [text [Hn [Hlt _]]].
    pose proof Hn as Hr.
    assert (Hlen : length (firstn (Z.to_nat count - 1) (v_lines v))
                   = (Z.to_nat count - 1)%nat)
      by (rewrite length_firstn; lia).
    assert (Hlt' : (pos_line p < length (scanLines false v))%nat)
      by (apply nth_error_Some; congruence).
    rewrite Hlines, length_app, Hlen in Hlt'; simpl in Hlt'.
    split; [lia|].
    intros E; rewrite Hlines, E, nth_error_app2, Hlen, Nat.sub_diag in Hn
      by lia.
    simpl in Hn; inversion Hn; subst text.
    rewrite length_firstn in Hlt; lia. }
  split; [exact Hsorted|].
  intros first rest E q Hq; rewrite E in Hsorted.
  inversion Hsorted as [|? ? _ F]; subst.
  rewrite Forall_forall in F; apply F, Hq.
Qed.


(** C8.  While the markers of a session are displayed, the stored repeat
    position is the first element of the remainder list computed when the
    labels of that session were assigned, and undefined when that session
    had no overflow; a value left by an earlier session is never kept. *)
Theorem repeat_position_of_session (h : Host) (isFwd : bool)
    (chr : option jsstring) (m0 m : Manager) (evs : list Event)
    (ss : Session) :
  jump ws h isFwd chr m0 = (m, evs, Awaiting ss) ->
  (exists v screen,
      batch1 h = inr v
      /\ Forall2 (fun c q => screenPos isFwd v (s_lines ss) c = Some q)
                 (s_positions ss) screen
      /\ s_remains ss = skipn 38 screen)
  /\ repeatPosition m = hd_error (s_remains ss)
  /\ (repeatPosition m = None <-> (length (s_positions ss) <= 38)%nat)
  /\ (forall rp,
        jump ws h isFwd chr (set_repeatPosition rp m0) = (m, evs, Awaiting ss))
  /\ (forall r, repeatPosition (fst (fst (getCharacter m r)))
                = repeatPosition m)
  /\ repeatPosition (fst (cancel m)) = repeatPosition m.
Proof.
  intros Hj.
  pose proof (jump_awaiting _ _ _ _ _ _ _ Hj) as Ha.
  destruct Ha as [v [positions [currpos [ev [screen Ha]]]]].
  destruct Ha as [Hb [Hfj [Hne [Hsc [He [Hm [Hev Hss]]]]]]].
  pose proof (Forall2_length Hsc) as Hlen.
  split.
  { exists v, screen; subst ss; repeat split; assumption. }
  split; [subst m ss; reflexivity|].
  split.
  { subst m ss; cbn [repeatPosition set_matchIds set_repeatPosition
                     s_positions].
    rewrite Hlen; split.
    - intros H; destruct (skipn 38 screen) eqn:E; [|discriminate H].
      apply (f_equal (@length _)) in E; rewrite length_skipn in E.
      simpl in E; lia.
    - intros H; rewrite skipn_all2 by exact H; reflexivity. }
  split.
  { intros rp.
    pose proof (jump_shape h isFwd chr (set_repeatPosition rp m0) v Hb) as Hs.
    cbv zeta in Hs.
    change (wordJump (set_repeatPosition rp m0)) with (wordJump m0) in Hs.
    change (jumpOnTrigger (set_repeatPosition rp m0))
      with (jumpOnTrigger m0) in Hs.
    destruct (candidates ws isFwd (searchCharacter h chr) v (wordJump m0))
      as [|first rest].
    { unfold firstJump in Hfj; destruct (jumpOnTrigger m0);
        [discriminate Hfj|].
      injection Hfj as <- _ _; contradiction Hne; reflexivity. }
    destruct Hs as [positions' [currpos' [ev' [screen' [Hfj' [Hsc' Hj']]]]]].
    rewrite Hfj in Hfj'; injection Hfj' as <- <- <-.
    rewrite (Forall2_functional _ _ _ _ Hsc' Hsc) in Hj'.
    rewrite Hj'.
    destruct positions as [|p positions]; [contradiction Hne; reflexivity|].
    unfold showLabels; rewrite He, Hm, Hev, Hss.
    unfold afterPrompt; destruct (negb (truthy_opt chr)); reflexivity. }
  split; [intros r; apply getCharacter_repeatPosition|].
  rewrite cancel_state; reflexivity.
Qed.

(** C10.  The repeat glyph is no symbol of the label alphabet, and in every
    state the manager can reach the keys of the label table are symbols of
    the alphabet: the table never holds the repeat glyph, so a pressed key
    is never both the repeat glyph and a key of the label table. *)
Theorem repeat_glyph_is_no_label (m : Manager) :
  reachable ws m ->
  ~ In repeatGlyph characters
  /\ JsMap.get repeatGlyph (positionMap m) = None
  /\ (forall key val,
        JsMap.get key (positionMap m) = Some val ->
        In key characters /\ key <> repeatGlyph).
Proof.
  intros Hr; pose proof (reachable_keys m Hr) as Hk.
  split; [exact repeatGlyph_not_label|].
  split.
  - apply JsMapFacts.get_not_in; intros Hin.
    apply repeatGlyph_not_label, Hk, Hin.
  - intros key val Hget.
    assert (Hin : In key characters)
      by (eapply Hk, JsMapFacts.get_In_keys; exact Hget).
    split; [exact Hin|].
    intros ->; apply repeatGlyph_not_label; exact Hin.
Qed.

End Properties.

(** ** The theorems at concrete sessions *)

(** The label loop on 43 candidates of the row of x: 38 labels, 5
    remainders. *)
Lemma label_assignment_witness :
  exists pm remains,
    labelLoop true rowStartView [rowOfX] 0 (map (mkPosition 0) (seq 2 43))
              JsMap.empty []
    = (pm, remains, true)
    /\ JsMap.size pm = 38%nat
    /\ length remains = 5%nat.
Proof.
  destruct (label_assignment true rowStartView [rowOfX]
              (map (mkPosition 0) (seq 2 43)))
    as [screen [pm [remains [_ [Hl [_ [_ [_ [_ Hgt]]]]]]]]].
  - intros p Hp; apply in_map_iff in Hp; destruct Hp as [j [<- _]].
    simpl; lia.
  - exists pm, remains; split; [exact Hl|].
    rewrite length_map, length_seq in Hgt.
    destruct Hgt as [H1 H2]; [lia|].
    split; [exact H1 | exact H2].
Defined.



(** The timer of the session on the three lines, timeout 1000. *)
Lemma timer_expiry_witness :
  getCharacter (fst (fst foxRun)) (TimerFirst escape)
  = (set_matchIds [] (fst (fst foxRun)),
     [GetChar; SetTimeout 1000; Notify feedkeys_esc; clearBatch [0; 4; 5; 6]],
     None).
Proof.
  rewrite (timer_expiry afterSpace (fst (fst foxRun)) escape).
  - reflexivity.
  - unfold foxRun, forward; apply reach_jump, reach_new.
  - reflexivity.
  - exact escape_not_label.
  - discriminate.
Defined.

(** With a configured timeout of 0 the timer is set to 1000. *)
Lemma timer_duration_counterexample :
  timeout (fst (fst zeroTimeoutRun)) = 0
  /\ snd (fst (getCharacter (fst (fst zeroTimeoutRun)) (TimerFirst escape)))
     = [GetChar; SetTimeout 1000; Notify feedkeys_esc;
        clearBatch [0; 4; 5; 6]]
  /\ ~ In (SetTimeout (timeout (fst (fst zeroTimeoutRun))))
          (snd (fst (getCharacter (fst (fst zeroTimeoutRun))
                                  (TimerFirst escape)))).
Proof.
  split; [reflexivity|].
  split; [vm_compute; reflexivity|].
  vm_compute; intros H.
  repeat (destruct H as [H|H]; [discriminate H|]); exact H.
Qed.

(** Cancelling the session on the three lines. *)
Lemma cancel_clears_markers_witness :
  cancel (fst (fst foxRun))
  = (set_matchIds [] (fst (fst foxRun)), [clearBatch [0; 4; 5; 6]])
  /\ positionMap (fst (cancel (fst (fst foxRun)))) <> JsMap.empty.
Proof.
  destruct (cancel_clears_markers afterSpace foxHost true None freshManager
              (fst (fst foxRun)) (snd (fst foxRun))
              (theSession (snd foxRun)))
    as [_ [Hc [_ [Hp Hne]]]].
  - vm_compute; reflexivity.
  - vm_compute; discriminate.
  - split; [exact Hc|].
    rewrite Hp; exact Hne.
Defined.

(** After the cancellation the label table still holds both labels. *)
Lemma cancel_keeps_labels_counterexample :
  matchIds (fst (fst foxRun)) = [0; 4; 5; 6]
  /\ matchIds (fst (cancel (fst (fst foxRun)))) = []
  /\ positionMap (fst (cancel (fst (fst foxRun))))
     = [(js "a", mkCharacter (2, 2) (js "a"));
        (js "b", mkCharacter (3, 2) (js "b"))]
  /\ positionMap (fst (cancel (fst (fst foxRun)))) <> JsMap.empty.
Proof.
  split; [vm_compute; reflexivity|].
  split; [vm_compute; reflexivity|].
  split; [vm_compute; reflexivity|].
  vm_compute; discriminate.
Qed.

(** forward with the cursor on the letter looked for: the occurrence at the
    cursor column is no candidate, and nothing is found. *)
Lemma forward_scan_counterexample :
  v_cursor oneView = (0, 0)
  /\ scanLines true oneView = [js "xa"]
  /\ occursAt (js "x") (js "xa") 0 = true
  /\ ~ In (mkPosition 0 0) (candidates afterSpace true (js "x") oneView false)
  /\ candidates afterSpace true (js "x") oneView false = []
  /\ snd oneRun = NoMatch.
Proof.
  split; [reflexivity|].
  split; [vm_compute; reflexivity|].
  split; [vm_compute; reflexivity|].
  split; [vm_compute; intros H; exact H|].
  split; vm_compute; reflexivity.
Qed.

(** backward on the six lines, cursor at line 5, character 10: the match
    at line 5, offset 3 comes before the match at line 2, offset 1; the
    cursor goes to the first, the second takes the first label. *)
Lemma backward_scan_witness :
  candidates afterSpace false (js "x") sixView false
  = [mkPosition 5 3; mkPosition 2 1]
  /\ (forall q, In q [mkPosition 2 1] -> posLt q (mkPosition 5 3))
  /\ scanLines false sixView
     = [js "zero"; js "one"; js "axb"; js "three"; js "four"; js "abcxefghij"]
  /\ positionMap (fst (fst sixRun))
     = [(js "a", mkCharacter (3, 2) (js "a"))].
Proof.
  destruct (backward_scan afterSpace sixView (js "x") false)
    as [Hl [_ [_ [_ [_ Hfirst]]]]].
  - vm_compute; split; discriminate.
  - vm_compute; discriminate.
  - split; [vm_compute; reflexivity|].
    split.
    + apply (Hfirst (mkPosition 5 3) [mkPosition 2 1]).
      vm_compute; reflexivity.
    + split; [rewrite Hl|]; vm_compute; reflexivity.
Defined.


(** forward over the row of x: the repeat position is the first of the five
    remainders. *)
Lemma repeat_position_of_session_witness :
  repeatPosition (fst (fst rowForwardRun)) = Some (1, 41)
  /\ s_remains (theSession (snd rowForwardRun))
     = [(1, 41); (1, 42); (1, 43); (1, 44); (1, 45)].
Proof.
  destruct (repeat_position_of_session afterSpace rowStartHost true None
              freshManager (fst (fst rowForwardRun))
              (snd (fst rowForwardRun)) (theSession (snd rowForwardRun)))
    as [_ [Hrp _]].
  - vm_compute; reflexivity.
  - rewrite Hrp; split; vm_compute; reflexivity.
Defined.

(** The label table after going backward over the row of x. *)
Lemma repeat_glyph_is_no_label_witness :
  JsMap.get repeatGlyph (positionMap (fst (fst rowBackRun))) = None.
Proof.
  destruct (repeat_glyph_is_no_label afterSpace (fst (fst rowBackRun)))
    as [_ [H _]].
  - unfold rowBackRun, backward; apply reach_jump, reach_new.
  - exact H.
Defined.

(** * Further properties of the manager *)

Section Further.

Variable ws : jsstring -> nat -> bool.

(** ** What [jump] sends *)

Lemma firstJump_events (h : Host) (isFwd : bool) (v : View)
    (lines : list jsstring) (cands : list Position) (jumpNow : bool)
    (positions : list Position) (currpos : Z * Z) (ev : list Event) :
  firstJump h isFwd v lines cands jumpNow = Some (positions, currpos, ev) ->
  (jumpNow = true /\ ev = [Request (call_cursor currpos)]
   /\ exists first, cands = first :: positions
                    /\ screenPos isFwd v lines first = Some currpos)
  \/ (jumpNow = false /\ ev = [Request getpos_dot] /\ positions = cands
      /\ currpos = getpos h).
Proof.
  unfold firstJump; destruct jumpNow.
  - destruct cands as [|first rest]; [discriminate|].
    destruct (screenPos isFwd v lines first) as [p|] eqn:E; [|discriminate].
    intros H; injection H as <- <- <-.
    left; split; [reflexivity|]; split; [reflexivity|].
    exists first; split; [reflexivity | exact E].
  - intros H; injection H as <- <- <-.
    right; repeat split.
Qed.

Lemma markerBatch_sends (f : HostCall -> bool) (pm : JsMap.t Character)
    (currpos : Z * Z) (remains : list (Z * Z)) :
  f (doautocmd "SmartfEnter") = false ->
  (forall g l c n pr i cc, f (matchaddpos g l c n pr i cc) = false) ->
  existsb f (markerBatch pm currpos remains) = false.
Proof.
  intros Hd Hm; unfold markerBatch; cbn [existsb]; rewrite Hd.
  rewrite !existsb_app; cbn [existsb orb].
  assert (Hmap : forall (A : Type) (g : A -> HostCall) (l : list A),
             (forall a, f (g a) = false) -> existsb f (map g l) = false).
  { intros A g l Hg; induction l as [|a l IH]; simpl; [reflexivity|].
    rewrite Hg, IH; reflexivity. }
  rewrite !Hmap; [unfold cursorMarker; rewrite Hm; reflexivity | |];
    intros a; apply Hm.
Qed.


(** X2.  A call of [jump] never clears markers: none of its requests is a
    call of clearmatches, and the handles stored before are kept unless new
    markers were shown, in which case they are overwritten by the new
    handles without having been cleared. *)
Theorem jump_never_clears (h : Host) (isFwd : bool) (chr : option jsstring)
    (m0 : Manager) :
  forallb (fun e => negb (sends isClearCall e))
          (snd (fst (jump ws h isFwd chr m0))) = true
  /\ matchIds (fst (fst (jump ws h isFwd chr m0)))
     = match snd (jump ws h isFwd chr m0) with
       | Awaiting _ => fst (batch2 h)
       | _ => matchIds m0
       end.
Proof.
  assert (Hm2 : matchIds (afterPrompt h isFwd chr m0) = matchIds m0).
  { unfold afterPrompt; destruct (negb (truthy_opt chr)); reflexivity. }
  assert (Hpe : forallb (fun e => negb (sends isClearCall e))
                        (promptEvents chr) = true).
  { unfold promptEvents; destruct (negb (truthy_opt chr)); reflexivity. }
  destruct (batch1 h) as [err|v] eqn:Hb.
  { unfold jump; rewrite Hb; split; reflexivity. }
  pose proof (jump_shape ws h isFwd chr m0 v Hb) as Hs; cbv zeta in Hs.
  destruct (candidates ws isFwd (searchCharacter h chr) v (wordJump m0))
    as [|first rest].
  { rewrite Hs; split; [exact Hpe | exact Hm2]. }
  destruct Hs as [positions [currpos [ev [screen [Hfj [_ Hj]]]]]].
  assert (Hev : forallb (fun e => negb (sends isClearCall e)) ev = true).
  { apply firstJump_events in Hfj.
    destruct Hfj as [[_ [-> _]]|[_ [-> _]]]; reflexivity. }
  rewrite Hj; destruct positions as [|p positions].
  { cbn [fst snd]; rewrite forallb_app, Hpe, Hev; split;
      [reflexivity | exact Hm2]. }
  unfold showLabels.
  assert (Hall : forallb (fun e => negb (sends isClearCall e))
                   ((promptEvents chr ++ ev)
                    ++ [Batch (markerBatch (labelEntries characters screen)
                                           currpos (skipn 38 screen))])
                 = true).
  { rewrite !forallb_app, Hpe, Hev; cbn [forallb sends andb].
    rewrite markerBatch_sends; reflexivity. }
  destruct (snd (batch2 h)); cbn [fst snd matchIds set_matchIds
    set_repeatPosition set_positionMap]; (split; [exact Hall|]);
    [exact Hm2 | reflexivity].
Qed.

(** ** The stored search *)

Lemma markerBatch_no_GetChar (l : list Event) (calls : list HostCall) :
  filter isGetChar (l ++ [Batch calls]) = filter isGetChar l.
Proof. rewrite filter_app; cbn [filter isGetChar]; apply app_nil_r. Qed.

Lemma jump_search_fields (h : Host) (isFwd : bool) (chr : option jsstring)
    (m0 : Manager) :
  let base := match batch1 h with
              | inl _ => m0
              | inr _ => afterPrompt h isFwd chr m0
              end in
  character (fst (fst (jump ws h isFwd chr m0))) = character base
  /\ isForward (fst (fst (jump ws h isFwd chr m0))) = isForward base
  /\ filter isGetChar (snd (fst (jump ws h isFwd chr m0)))
     = match batch1 h with
       | inl _ => []
       | inr _ => if truthy_opt chr then [] else [GetChar]
       end.
Proof.
  destruct (batch1 h) as [err|v] eqn:Hb; cbv zeta.
  { unfold jump; rewrite Hb; repeat split. }
  assert (Hpe : filter isGetChar (promptEvents chr)
                = if truthy_opt chr then [] else [GetChar]).
  { unfold promptEvents; destruct (truthy_opt chr); reflexivity. }
  pose proof (jump_shape ws h isFwd chr m0 v Hb) as Hs; cbv zeta in Hs.
  destruct (candidates ws isFwd (searchCharacter h chr) v (wordJump m0))
    as [|first rest].
  { rewrite Hs; repeat split; exact Hpe. }
  destruct Hs as [positions [currpos [ev [screen [Hfj [_ Hj]]]]]].
  assert (Hev : filter isGetChar (promptEvents chr ++ ev)
                = if truthy_opt chr then [] else [GetChar]).
  { apply firstJump_events in Hfj; rewrite filter_app, Hpe.
    destruct Hfj as [[_ [-> _]]|[_ [-> _]]]; apply app_nil_r. }
  rewrite Hj; destruct positions as [|p positions].
  { repeat split; exact Hev. }
  unfold showLabels.
  destruct (snd (batch2 h)); cbn [fst snd]; rewrite markerBatch_no_GetChar;
    repeat split; exact Hev.
Qed.

(** X3.  A call of [jump] given no search character (undefined or empty)
    asks for one exactly once and stores it together with the direction,
    whatever the search then finds, also when nothing is found; given a
    search character it never asks and leaves the stored character and
    direction as they are; when the first batch fails it asks for nothing
    and stores nothing. *)
Theorem search_is_remembered (h : Host) (isFwd : bool)
    (chr : option jsstring) (m0 : Manager) :
  let m := fst (fst (jump ws h isFwd chr m0)) in
  let asked := filter isGetChar (snd (fst (jump ws h isFwd chr m0))) in
  match batch1 h with
  | inl _ =>
      character m = character m0 /\ isForward m = isForward m0 /\ asked = []
  | inr _ =>
      if truthy_opt chr
      then character m = character m0 /\ isForward m = isForward m0
           /\ asked = []
      else character m = Some (getchar h) /\ isForward m = isFwd
           /\ asked = [GetChar]
  end.
Proof.
  cbv zeta.
  pose proof (jump_search_fields h isFwd chr m0) as H; cbv zeta in H.
  destruct H as [Hc [Hf Ha]]; rewrite Hc, Hf, Ha.
  destruct (batch1 h) as [err|v]; [repeat split|].
  unfold afterPrompt, searchCharacter.
  destruct chr as [[|u c]|]; repeat split.
Qed.

(** X4.  Once a search character is stored, repeat and repeatOpposite
    never ask for one and never change the stored character or direction:
    repeat searches in the stored direction, repeatOpposite in the other
    one, so repeatOpposite called twice in a row searches the same way both
    times. *)
Theorem repeat_keeps_stored_search (e : Entry) (h : Host) (m : Manager) :
  e = Repeat \/ e = RepeatOpposite ->
  truthy_opt (character m) = true ->
  character (fst (fst (enter ws e h m))) = character m
  /\ isForward (fst (fst (enter ws e h m))) = isForward m
  /\ filter isGetChar (snd (fst (enter ws e h m))) = []
  /\ (forall ss, snd (enter ws e h m) = Awaiting ss ->
        Some (s_character ss) = character m
        /\ s_isForward ss
           = match e with Repeat => isForward m | _ => negb (isForward m) end).
Proof.
  intros He Ht.
  assert (Hgen : forall isFwd,
             character (fst (fst (jump ws h isFwd (character m) m)))
             = character m
             /\ isForward (fst (fst (jump ws h isFwd (character m) m)))
                = isForward m
             /\ filter isGetChar (snd (fst (jump ws h isFwd (character m) m)))
                = []
             /\ (forall ss,
                   snd (jump ws h isFwd (character m) m) = Awaiting ss ->
                   Some (s_character ss) = character m
                   /\ s_isForward ss = isFwd)).
  { intros isFwd.
    pose proof (jump_search_fields h isFwd (character m) m) as H.
    cbv zeta in H; destruct H as [Hc [Hf Ha]].
    rewrite Hc, Hf, Ha, Ht; unfold afterPrompt; rewrite Ht; cbn [negb].
    split; [destruct (batch1 h); reflexivity|].
    split; [destruct (batch1 h); reflexivity|].
    split; [destruct (batch1 h); reflexivity|].
    intros ss Hss.
    destruct (jump ws h isFwd (character m) m) as [[m' evs] out] eqn:Hj.
    cbn [snd] in Hss; subst out.
    apply awaiting_fields in Hj; destruct Hj as [_ [Hd [Hs _]]].
    rewrite Hd, Hs; unfold searchCharacter.
    destruct (character m) as [[|u c]|]; try discriminate Ht.
    split; reflexivity. }
  destruct He as [-> | ->]; cbn [enter]; unfold repeat, repeatOpposite;
    apply Hgen.
Qed.

(** ** Resolving the captured key *)

Lemma getCharacter_key (m : Manager) (ch : jsstring) :
  ch <> repeatGlyph \/ repeatPosition m = None ->
  getCharacter m (KeyFirst ch)
  = (set_matchIds [] m,
     [GetChar; SetTimeout (timerDelay m)]
     ++ (if (length (matchIds m) =? 0)%nat then []
         else [clearBatch (matchIds m)])
     ++ match JsMap.get ch (positionMap m) with
        | Some val => [Notify (call_cursor (ch_position val))]
        | None => []
        end,
     None).
Proof.
  intros H; unfold getCharacter.
  assert (Hsel : (if str_eqb ch repeatGlyph then repeatPosition m else None)
                 = None).
  { destruct H as [H|H]; [rewrite (str_eqb_neq _ _ H); reflexivity|].
    rewrite H; destruct (str_eqb ch repeatGlyph); reflexivity. }
  rewrite Hsel, (cancel_pair m), cancel_events; reflexivity.
Qed.

(** The label table and the repeat position a session leaves. *)
Lemma awaiting_table (h : Host) (isFwd : bool) (chr : option jsstring)
    (m0 m : Manager) (evs : list Event) (ss : Session) (v : View) :
  jump ws h isFwd chr m0 = (m, evs, Awaiting ss) ->
  batch1 h = inr v ->
  exists screen,
    Forall2 (fun p q => screenPos isFwd v (s_lines ss) p = Some q)
            (s_positions ss) screen
    /\ positionMap m = labelEntries characters screen
    /\ s_remains ss = skipn 38 screen
    /\ repeatPosition m = hd_error (skipn 38 screen)
    /\ matchIds m = fst (batch2 h)
    /\ s_positions ss <> []
    /\ exists ev,
         firstJump h isFwd v (s_lines ss)
           (candidates ws isFwd (s_character ss) v (wordJump m0))
           (jumpOnTrigger m0) = Some (s_positions ss, s_currpos ss, ev)
         /\ s_lines ss = scanLines isFwd v
         /\ evs = (promptEvents chr ++ ev)
                  ++ [Batch (markerBatch (labelEntries characters screen)
                                         (s_currpos ss) (skipn 38 screen))].
Proof.
  intros Hj Hb.
  apply jump_awaiting in Hj.
  destruct Hj as [v' [positions [currpos [ev [screen Hj]]]]].
  destruct Hj as [Hb' [Hfj [Hne [Hsc [_ [-> [-> ->]]]]]]].
  rewrite Hb in Hb'; injection Hb' as <-.
  exists screen; cbn [s_lines s_positions s_remains s_currpos s_character].
  split; [exact Hsc|]; do 4 (split; [reflexivity|]).
  split; [exact Hne|].
  exists ev; split; [exact Hfj|]; split; reflexivity.
Qed.

(** X5.  After a call of [jump] that shows markers, capturing the i-th
    symbol of the alphabet, for i below 38 and below the number of labelled
    candidates, clears the markers with the handles of that call, moves the
    cursor to the screen position of the i-th labelled candidate, and does
    not call [jump] again. *)
Theorem label_key_moves_cursor (h : Host) (isFwd : bool)
    (chr : option jsstring) (m0 m : Manager) (evs : list Event)
    (ss : Session) (v : View) (i : nat) (p : Position) (ch : jsstring) :
  jump ws h isFwd chr m0 = (m, evs, Awaiting ss) ->
  batch1 h = inr v ->
  nth_error (s_positions ss) i = Some p ->
  nth_error characters i = Some ch ->
  exists q,
    screenPos isFwd v (s_lines ss) p = Some q
    /\ getCharacter m (KeyFirst ch)
       = (set_matchIds [] m,
          [GetChar; SetTimeout (timerDelay m)]
          ++ (if (length (fst (batch2 h)) =? 0)%nat then []
              else [clearBatch (fst (batch2 h))])
          ++ [Notify (call_cursor q)],
          None).
Proof.
  intros Hj Hb Hp Hch.
  destruct (awaiting_table _ _ _ _ _ _ _ _ Hj Hb)
    as [screen [Hsc [Hpm [_ [_ [Hids _]]]]]].
  assert (Hq : exists q, nth_error screen i = Some q
                         /\ screenPos isFwd v (s_lines ss) p = Some q).
  { clear - Hsc Hp. revert i Hp.
    induction Hsc as [|p' q' ps qs Hpq _ IH]; intros [|i] Hp;
      simpl in Hp; try discriminate.
    - inversion Hp; subst; exists q'; split; [reflexivity | exact Hpq].
    - apply IH; exact Hp. }
  destruct Hq as [q [Hnq Hpq]].
  exists q; split; [exact Hpq|].
  rewrite getCharacter_key.
  2:{ left; intros ->; apply repeatGlyph_not_label.
      eapply nth_error_In; exact Hch. }
  rewrite Hpm, Hids.
  rewrite (JsMapFacts.get_nth _ i ch (mkCharacter q ch)
             (labelEntries_NoDup screen)
             (labelEntries_nth characters screen i ch q Hch Hnq)).
  reflexivity.
Qed.

(** X6.  After a call of [jump] that shows markers, capturing a key that
    labels none of the candidates (an escape, a symbol of the alphabet
    beyond the labels in use, or the repeat glyph when at most 38
    candidates were labelled) only clears the markers: the cursor is not
    moved and [jump] is not called again. *)
Theorem other_key_only_cancels (h : Host) (isFwd : bool)
    (chr : option jsstring) (m0 m : Manager) (evs : list Event)
    (ss : Session) (ch : jsstring) :
  jump ws h isFwd chr m0 = (m, evs, Awaiting ss) ->
  ~ In ch (firstn (length (s_positions ss)) characters) ->
  ch <> repeatGlyph \/ (length (s_positions ss) <= 38)%nat ->
  getCharacter m (KeyFirst ch)
  = (set_matchIds [] m,
     [GetChar; SetTimeout (timerDelay m)]
     ++ (if (length (fst (batch2 h)) =? 0)%nat then []
         else [clearBatch (fst (batch2 h))]),
     None).
Proof.
  intros Hj Hnot Hglyph.
  destruct (batch1 h) as [err|v] eqn:Hb.
  { unfold jump in Hj; rewrite Hb in Hj; discriminate Hj. }
  destruct (awaiting_table _ _ _ _ _ _ _ _ Hj Hb)
    as [screen [Hsc [Hpm [_ [Hrp [Hids _]]]]]].
  pose proof (Forall2_length Hsc) as Hlen.
  rewrite getCharacter_key.
  2:{ destruct Hglyph as [Hg|Hle]; [left; exact Hg|].
      right; rewrite Hrp, skipn_all2 by lia; reflexivity. }
  rewrite Hpm, Hids, JsMapFacts.get_not_in.
  - rewrite app_nil_r; reflexivity.
  - rewrite labelEntries_keys, <- Hlen; exact Hnot.
Qed.

(** X7.  Whoever wins the race and whatever key is captured,
    [getCharacter] clears the markers exactly once when there are marker
    handles, with exactly these handles, and not at all when there are
    none; it leaves the list of handles empty, moves the cursor at most
    once, and feeds an escape exactly when the timer fired first. *)
Theorem getCharacter_clears_once (m : Manager) (r : Race) :
  matchIds (fst (fst (getCharacter m r))) = []
  /\ filter (sends isClearCall) (snd (fst (getCharacter m r)))
     = (if (length (matchIds m) =? 0)%nat then []
        else [clearBatch (matchIds m)])
  /\ (length (filter (sends isCursorCall) (snd (fst (getCharacter m r))))
      <= 1)%nat
  /\ filter (fun e => match e with Notify feedkeys_esc => true | _ => false end)
            (snd (fst (getCharacter m r)))
     = match r with
       | KeyFirst _ => []
       | TimerFirst _ => [Notify feedkeys_esc]
       end.
Proof.
  unfold getCharacter; destruct r as [ch|ch].
  - rewrite (cancel_pair m), cancel_events.
    destruct (if str_eqb ch repeatGlyph then repeatPosition m else None);
      destruct (JsMap.get ch (positionMap m));
      destruct (length (matchIds m) =? 0)%nat;
      cbn; repeat split; lia.
  - rewrite (cancel_pair m), (cancel_pair (set_matchIds [] m)), !cancel_events.
    cbn [matchIds set_matchIds length Nat.eqb repeatPosition positionMap].
    destruct (if str_eqb ch repeatGlyph then repeatPosition m else None);
      destruct (JsMap.get ch (positionMap m));
      destruct (length (matchIds m) =? 0)%nat;
      cbn; repeat split; lia.
Qed.

(** ** The markers *)




(** X9.  With jumpOnTrigger disabled and a candidate sequence that is not
    empty, [jump] does not move the cursor: it asks the editor for the
    cursor position, uses it as the reference position of the cursor
    marker, and labels every candidate, the first one with the first symbol
    of the alphabet. *)
Theorem no_jump_on_trigger (h : Host) (isFwd : bool) (chr : option jsstring)
    (m0 : Manager) (v : View) (first : Position) (rest : list Position) :
  jumpOnTrigger m0 = false ->
  batch1 h = inr v ->
  candidates ws isFwd (searchCharacter h chr) v (wordJump m0) = first :: rest ->
  exists q screen,
    Forall2 (fun c p => screenPos isFwd v (scanLines isFwd v) c = Some p)
            (first :: rest) (q :: screen)
    /\ positionMap (fst (fst (jump ws h isFwd chr m0)))
       = labelEntries characters (q :: screen)
    /\ JsMap.get (js "a") (positionMap (fst (fst (jump ws h isFwd chr m0))))
       = Some (mkCharacter q (js "a"))
    /\ snd (fst (jump ws h isFwd chr m0))
       = promptEvents chr ++ [Request getpos_dot]
         ++ [Batch (markerBatch (labelEntries characters (q :: screen))
                                (getpos h) (skipn 38 (q :: screen)))]
    /\ filter (sends isCursorCall) (snd (fst (jump ws h isFwd chr m0))) = [].
Proof.
  intros Hjot Hb Hc.
  pose proof (jump_shape ws h isFwd chr m0 v Hb) as Hs; cbv zeta in Hs.
  rewrite Hc, Hjot in Hs.
  destruct Hs as [positions [currpos [ev [screen [Hfj [Hsc Hj]]]]]].
  cbn [firstJump] in Hfj; injection Hfj as <- <- <-.
  inversion Hsc as [|? q ? screen' Hq Hsc']; subst.
  exists q, screen'.
  split; [exact Hsc|].
  assert (Hev : snd (fst (jump ws h isFwd chr m0))
                = promptEvents chr ++ [Request getpos_dot]
                  ++ [Batch (markerBatch (labelEntries characters
                                            (q :: screen'))
                                         (getpos h)
                                         (skipn 38 (q :: screen')))]).
  { rewrite Hj; unfold showLabels; destruct (snd (batch2 h)); cbn [fst snd];
      rewrite <- app_assoc; reflexivity. }
  assert (Hpm : positionMap (fst (fst (jump ws h isFwd chr m0)))
                = labelEntries characters (q :: screen')).
  { rewrite Hj; unfold showLabels; destruct (snd (batch2 h)); reflexivity. }
  split; [exact Hpm|].
  split; [rewrite Hpm; reflexivity|].
  split; [exact Hev|].
  rewrite Hev, !filter_app.
  assert (Hpe : filter (sends isCursorCall) (promptEvents chr) = []).
  { unfold promptEvents; destruct (negb (truthy_opt chr)); reflexivity. }
  rewrite Hpe; cbn [filter sends isCursorCall app].
  rewrite markerBatch_sends; reflexivity.
Qed.

(** ** Byte columns *)

Lemma list_pair_ind {A : Type} (P : list A -> Prop) :
  P [] -> (forall x, P [x]) ->
  (forall x y l, P l -> P (y :: l) -> P (x :: y :: l)) ->
  forall l, P l.
Proof.
  intros H0 H1 H2 l.
  assert (H : P l /\ forall x, P (x :: l)).
  { induction l as [|y l [IHl IHx]]; [split; [exact H0 | exact H1]|].
    split; [apply IHx|].
    intros x; apply H2; [exact IHl | apply IHx]. }
  exact (proj1 H).
Qed.

Lemma byteLength_unit (u : N) :
  (1 <= byteLength [u] <= 3)%nat.
Proof.
  cbn [byteLength].
  destruct (u <? 128)%N; [lia|].
  destruct (u <? 2048)%N; [lia|].
  destruct (isHighSurrogate u); lia.
Qed.

Lemma byteLength_snoc (l : list N) :
  forall u, (byteLength l < byteLength (l ++ [u]))%nat.
Proof.
  induction l as [|x|x y l IHl IHy] using list_pair_ind; intros u.
  - pose proof (byteLength_unit u); cbn [byteLength app] in *; lia.
  - pose proof (byteLength_unit u) as Hu.
    cbn [byteLength app] in *.
    destruct (x <? 128)%N; [lia|].
    destruct (x <? 2048)%N; [lia|].
    destruct (isHighSurrogate x); [|lia].
    destruct (isLowSurrogate u); lia.
  - specialize (IHl u); specialize (IHy u).
    change ((x :: y :: l) ++ [u]) with (x :: (y :: l) ++ [u]).
    change ((y :: l) ++ [u]) with (y :: l ++ [u]) in *.
    remember (y :: l) as r eqn:Er.
    remember (y :: l ++ [u]) as r' eqn:Er'.
    cbn [byteLength].
    destruct (x <? 128)%N; [lia|].
    destruct (x <? 2048)%N; [lia|].
    destruct (isHighSurrogate x); [|lia].
    subst r r'.
    destruct (isLowSurrogate y); lia.
Qed.

Lemma byteLength_bounds (l : list N) :
  (length l <= byteLength l <= 3 * length l)%nat.
Proof.
  induction l as [|x|x y l IHl IHy] using list_pair_ind.
  - simpl; lia.
  - pose proof (byteLength_unit x); simpl length; lia.
  - remember (y :: l) as r eqn:Er.
    cbn [byteLength length].
    destruct (x <? 128)%N; [lia|].
    destruct (x <? 2048)%N; [lia|].
    destruct (isHighSurrogate x); [|lia].
    subst r; cbn [length] in *.
    destruct (isLowSurrogate y); lia.
Qed.

Lemma byteLength_ascii (l : list N) :
  Forall (fun u => (u < 128)%N) l -> byteLength l = length l.
Proof.
  induction 1 as [|u l Hu _ IH]; [reflexivity|].
  cbn [byteLength length].
  apply N.ltb_lt in Hu; rewrite Hu, IH; reflexivity.
Qed.

Lemma byteIndex_firstn (content : jsstring) (index : nat) :
  byteIndex content index = byteLength (firstn index content).
Proof.
  unfold byteIndex; rewrite jsSlice_prefix by lia.
  rewrite Nat2Z.id; reflexivity.
Qed.

Lemma byteIndex_step (content : jsstring) (index : nat) :
  (index < length content)%nat ->
  (byteIndex content index < byteIndex content (S index))%nat.
Proof.
  intros H; rewrite !byteIndex_firstn.
  destruct (nth_error content index) as [u|] eqn:E.
  - rewrite (firstn_nth_snoc content index u E); apply byteLength_snoc.
  - apply nth_error_None in E; lia.
Qed.

Lemma byteIndex_increasing (content : jsstring) (i j : nat) :
  (i < j <= length content)%nat ->
  (byteIndex content i < byteIndex content j)%nat.
Proof.
  intros [Hij Hj]; induction j as [|j IH]; [lia|].
  pose proof (byteIndex_step content j ltac:(lia)) as Hs.
  destruct (Nat.eq_dec i j) as [->|Hne]; [exact Hs|].
  specialize (IH ltac:(lia) ltac:(lia)); lia.
Qed.

(** X10.  [byteIndex] counts at least one and at most three bytes per code
    unit before the index, so up to the length of the content it is
    strictly increasing in the index; on content of ASCII characters only
    it is the index itself; past the end of the content it stays at the
    byte length of the whole content. *)
Theorem byteIndex_bounds (content : jsstring) (index : nat) :
  (index <= length content)%nat ->
  (index <= byteIndex content index <= 3 * index)%nat
  /\ (forall j, (index < j <= length content)%nat ->
                (byteIndex content index < byteIndex content j)%nat)
  /\ (Forall (fun u => (u < 128)%N) content ->
      byteIndex content index = index)
  /\ (forall j, (length content <= j)%nat ->
                byteIndex content j = byteLength content).
Proof.
  intros Hi.
  split.
  { rewrite byteIndex_firstn.
    pose proof (byteLength_bounds (firstn index content)) as Hb.
    rewrite length_firstn, Nat.min_l in Hb by exact Hi; exact Hb. }
  split; [intros j Hj; apply byteIndex_increasing; exact Hj|].
  split.
  { intros Ha; rewrite byteIndex_firstn, byteLength_ascii.
    - rewrite length_firstn; lia.
    - apply Forall_forall; intros u Hu.
      rewrite Forall_forall in Ha; apply Ha.
      rewrite <- (firstn_skipn index content); apply in_or_app; left; exact Hu. }
  intros j Hj; rewrite byteIndex_firstn, firstn_all2 by exact Hj; reflexivity.
Qed.

(** ** Screen positions *)

Lemma StronglySorted_NoDup {A : Type} (R : A -> A -> Prop) (l : list A) :
  (forall x, ~ R x x) -> StronglySorted R l -> NoDup l.
Proof.
  intros Hirr; induction 1 as [|a l S IH F]; constructor; [|exact IH].
  intros Hin; rewrite Forall_forall in F; exact (Hirr a (F a Hin)).
Qed.

Lemma candidates_NoDup (isFwd : bool) (c : jsstring) (v : View) (wj : bool) :
  NoDup (candidates ws isFwd c v wj).
Proof.
  assert (H : NoDup (getPositions ws c (scanLines isFwd v) wj
                                  (scanOffset isFwd v))).
  { apply StronglySorted_NoDup with (R := posLt); [|apply scanFrom_sorted].
    intros x [H|[_ H]]; lia. }
  unfold candidates; destruct (negb isFwd); [apply NoDup_rev|]; exact H.
Qed.

(** Two candidates of one scan that land on the same screen position are
    the same candidate. *)
Lemma screenPos_injective (isFwd : bool) (c : jsstring) (v : View) (wj : bool)
    (p q : Position) (a : Z * Z) :
  In p (candidates ws isFwd c v wj) ->
  In q (candidates ws isFwd c v wj) ->
  screenPos isFwd v (scanLines isFwd v) p = Some a ->
  screenPos isFwd v (scanLines isFwd v) q = Some a ->
  p = q.
Proof.
  intros Hp Hq Sp Sq.
  apply candidates_In, getPositions_In in Hp.
  apply candidates_In, getPositions_In in Hq.
  destruct Hp as [tp [Hnp [Hlp _]]]; destruct Hq as [tq [Hnq [Hlq _]]].
  unfold screenPos in Sp, Sq; rewrite Hnp in Sp; rewrite Hnq in Sq.
  rewrite <- Sq in Sp; injection Sp as Hline Hcol.
  assert (El : pos_line p = pos_line q) by lia.
  rewrite El, Hnq in Hnp; injection Hnp as ->.
  assert (Ec : pos_character p = pos_character q).
  { destruct (Nat.lt_trichotomy (pos_character p) (pos_character q))
      as [Hlt|[E|Hgt]]; [|exact E|].
    - pose proof (byteIndex_increasing tp _ _ (conj Hlt (Nat.lt_le_incl _ _ Hlq))).
      lia.
    - pose proof (byteIndex_increasing tp _ _ (conj Hgt (Nat.lt_le_incl _ _ Hlp))).
      lia. }
  destruct p, q; simpl in *; subst; reflexivity.
Qed.

Lemma screen_back (isFwd : bool) (c : jsstring) (v : View) (wj : bool)
    (positions : list Position) (screen : list (Z * Z)) :
  incl positions (candidates ws isFwd c v wj) ->
  Forall2 (fun p q => screenPos isFwd v (scanLines isFwd v) p = Some q)
          positions screen ->
  forall p a, In p (candidates ws isFwd c v wj) ->
              screenPos isFwd v (scanLines isFwd v) p = Some a ->
              In a screen -> In p positions.
Proof.
  intros Hincl Hsc.
  induction Hsc as [|p' q' ps qs Hpq _ IH]; intros p a Hp Sp Ha;
    [destruct Ha|].
  destruct Ha as [<-|Ha].
  - left; eapply screenPos_injective; try eassumption.
    apply Hincl; left; reflexivity.
  - right; eapply IH; try eassumption.
    intros x Hx; apply Hincl; right; exact Hx.
Qed.

Lemma Forall2_NoDup_screen (isFwd : bool) (c : jsstring) (v : View)
    (wj : bool) (positions : list Position) (screen : list (Z * Z)) :
  incl positions (candidates ws isFwd c v wj) ->
  NoDup positions ->
  Forall2 (fun p q => screenPos isFwd v (scanLines isFwd v) p = Some q)
          positions screen ->
  NoDup screen
  /\ forall p a, In p (candidates ws isFwd c v wj) ->
                 screenPos isFwd v (scanLines isFwd v) p = Some a ->
                 In a screen -> In p positions.
Proof.
  intros Hincl Hnd Hsc.
  split; [|apply (screen_back isFwd c v wj positions screen Hincl Hsc)].
  induction Hsc as [|p' q' ps qs Hpq Hsc IH]; [constructor|].
  inversion Hnd as [|? ? Hnotin Hnd']; subst.
  assert (Hincl' : incl ps (candidates ws isFwd c v wj))
    by (intros x Hx; apply Hincl; right; exact Hx).
  constructor; [|apply IH; assumption].
  intros Hin; apply Hnotin.
  apply (screen_back isFwd c v wj ps qs Hincl' Hsc p' q');
    [apply Hincl; left; reflexivity | exact Hpq | exact Hin].
Qed.

Lemma labelEntries_ch_positions (cs : list jsstring)
    (screen : list (Z * Z)) :
  map ch_position (JsMap.values (labelEntries cs screen))
  = firstn (length cs) screen.
Proof.
  unfold JsMap.values, labelEntries; rewrite !map_map.
  revert screen; induction cs as [|c cs IH]; intros [|q screen];
    try reflexivity.
  cbn [combine map length firstn]; f_equal; apply IH.
Qed.

(** X11.  The markers of a session never overlap: the screen positions of
    the labels and of the remainder markers are pairwise distinct, and with
    jumpOnTrigger the position the cursor was moved to is none of them (the
    finder yields every candidate once, at an offset inside its line). *)
Theorem screen_positions_distinct (h : Host) (isFwd : bool)
    (chr : option jsstring) (m0 m : Manager) (evs : list Event)
    (ss : Session) (v : View) :
  jump ws h isFwd chr m0 = (m, evs, Awaiting ss) ->
  batch1 h = inr v ->
  NoDup (map ch_position (JsMap.values (positionMap m)) ++ s_remains ss)
  /\ (jumpOnTrigger m0 = true ->
      ~ In (s_currpos ss)
           (map ch_position (JsMap.values (positionMap m)) ++ s_remains ss)).
Proof.
  intros Hj Hb.
  destruct (awaiting_table _ _ _ _ _ _ _ _ Hj Hb)
    as [screen [Hsc [Hpm [Hrem [_ [_ [_ [ev [Hfj [Hlines _]]]]]]]]]].
  assert (Hscreen : map ch_position (JsMap.values (positionMap m))
                    ++ s_remains ss = screen).
  { rewrite Hpm, Hrem.
    rewrite labelEntries_ch_positions, characters_length.
    apply firstn_skipn. }
  rewrite Hscreen; rewrite Hlines in Hsc, Hfj.
  pose proof (candidates_NoDup isFwd (s_character ss) v (wordJump m0)) as Hnd.
  apply firstJump_events in Hfj.
  destruct Hfj as [[Hjot [_ [first [Hc Hfirst]]]]|[Hjot [_ [Hc _]]]].
  - rewrite Hc in Hnd; apply NoDup_cons_iff in Hnd.
    destruct Hnd as [Hnotin Hnd'].
    destruct (Forall2_NoDup_screen isFwd (s_character ss) v (wordJump m0)
                (s_positions ss) screen) as [Hn Hback];
      [rewrite Hc; apply incl_tl, incl_refl | exact Hnd' | exact Hsc |].
    split; [exact Hn|].
    intros _ Hin; apply Hnotin.
    apply (Hback first (s_currpos ss)); [rewrite Hc; left; reflexivity | |];
      assumption.
  - destruct (Forall2_NoDup_screen isFwd (s_character ss) v (wordJump m0)
                (s_positions ss) screen) as [Hn _];
      [rewrite Hc; apply incl_refl | rewrite Hc; exact Hnd | exact Hsc |].
    split; [exact Hn|].
    intros Ht; rewrite Ht in Hjot; discriminate Hjot.
Qed.

(** ** From scanned lines to buffer lines *)

Lemma scanLines_backward (v : View) :
  let k := fst (v_cursor v) - (v_startline v - 1) in
  0 <= k < Z.of_nat (length (v_lines v)) ->
  0 <= snd (v_cursor v) ->
  scanLines false v
  = firstn (Z.to_nat k) (v_lines v)
    ++ [firstn (Z.to_nat (snd (v_cursor v))) (v_currline v)].
Proof.
  intros k Hk Hcol.
  unfold scanLines; cbn [negb]; fold k.
  rewrite !jsSlice_prefix by lia.
  replace (Z.to_nat (k + 1)) with (S (Z.to_nat k)) by lia.
  unfold setLast.
  destruct (firstn (S (Z.to_nat k)) (v_lines v)) eqn:E.
  - apply (f_equal (@length _)) in E; rewrite length_firstn in E.
    cbn [length] in E; lia.
  - rewrite <- E, removelast_firstn by lia; reflexivity.
Qed.

(** X12.  For a cursor inside the viewport, the line sent to the editor for
    a candidate is the number of the first visible line plus the row of the
    viewport the candidate lies on, and the column is one plus the number
    of UTF-8 bytes of the text before the candidate on its line.  Forward,
    the rows start at the cursor's row; backward, they start at the top of
    the viewport, and the cursor's row holds the text before the cursor. *)
Theorem screen_line_is_buffer_line (v : View) (isFwd : bool) (p : Position)
    (q : Z * Z) :
  let k := fst (v_cursor v) - (v_startline v - 1) in
  0 <= k < Z.of_nat (length (v_lines v)) ->
  0 <= snd (v_cursor v) ->
  screenPos isFwd v (scanLines isFwd v) p = Some q ->
  exists row text,
    nth_error (scanLines isFwd v) (pos_line p) = Some text
    /\ fst q = v_startline v + Z.of_nat row
    /\ snd q = Z.of_nat (byteLength (firstn (pos_character p) text)) + 1
    /\ (if isFwd
        then row = (Z.to_nat k + pos_line p)%nat
             /\ nth_error (v_lines v) row = Some text
        else row = pos_line p
             /\ (row <= Z.to_nat k)%nat
             /\ ((row < Z.to_nat k)%nat ->
                 nth_error (v_lines v) row = Some text)
             /\ (row = Z.to_nat k ->
                 text = firstn (Z.to_nat (snd (v_cursor v))) (v_currline v))).
Proof.
  intros k Hk Hcol Hs.
  unfold screenPos in Hs.
  destruct (nth_error (scanLines isFwd v) (pos_line p)) as [text|] eqn:En;
    [|discriminate Hs].
  injection Hs as <-.
  rewrite byteIndex_firstn.
  destruct isFwd.
  - exists (Z.to_nat k + pos_line p)%nat, text.
    split; [reflexivity|]; split; [cbn [fst]; fold k; lia|].
    split; [reflexivity|]; split; [reflexivity|].
    unfold scanLines in En; cbn [negb] in En; fold k in En.
    rewrite jsSliceFrom_suffix, nth_error_skipn in En by lia; exact En.
  - exists (pos_line p), text.
    split; [reflexivity|]; split; [cbn [fst]; lia|].
    split; [reflexivity|]; split; [reflexivity|].
    rewrite (scanLines_backward v Hk Hcol) in En; fold k in En.
    assert (Hlen : length (firstn (Z.to_nat k) (v_lines v)) = Z.to_nat k)
      by (rewrite length_firstn; lia).
    destruct (Nat.lt_trichotomy (pos_line p) (Z.to_nat k)) as [Hlt|[E|Hgt]].
    + split; [lia|]; split; [|lia].
      intros _; rewrite nth_error_app1, nth_error_firstn in En by lia.
      apply Nat.ltb_lt in Hlt; rewrite Hlt in En; exact En.
    + split; [lia|]; split; [lia|].
      intros _; rewrite nth_error_app2, Hlen, E, Nat.sub_diag in En by lia.
      injection En as <-; reflexivity.
    + rewrite nth_error_app2, Hlen in En by lia.
      destruct (pos_line p - Z.to_nat k)%nat as [|[|n]] eqn:Ed;
        [lia | discriminate En | discriminate En].
Qed.

(** ** [characterIndex] after [byteIndex] *)

Lemma N_forall_spec (f : N -> bool) (n : N) :
  N_forall f n = true -> forall i, (i < n)%N -> f i = true.
Proof.
  unfold N_forall.
  set (F := fun st : N * bool => (N.succ (fst st), snd st && f (fst st))).
  assert (H : forall k,
             fst (N.iter k F (0%N, true)) = k
             /\ (snd (N.iter k F (0%N, true)) = true ->
                 forall i, (i < k)%N -> f i = true)).
  { intros k; induction k as [|k [IHf IHs]] using N.peano_ind.
    - split; [reflexivity|]; intros _ i Hi; lia.
    - rewrite N.iter_succ; unfold F at 1; cbn [fst snd]; rewrite IHf.
      split; [reflexivity|].
      intros Hb i Hi; apply andb_true_iff in Hb; destruct Hb as [Hb Hk].
      rewrite IHf in Hk.
      destruct (N.eq_dec i k) as [->|Hne]; [exact Hk|].
      apply IHs; [exact Hb | lia]. }
  intros Hn; exact (proj2 (H n) Hn).
Qed.

Lemma utf8State_eqb_eq (a b : Utf8State) :
  utf8State_eqb a b = true -> a = b.
Proof.
  unfold utf8State_eqb; destruct a, b; cbn [u8_codepoint u8_needed u8_seen
    u8_lower u8_upper].
  rewrite !andb_true_iff, !N.eqb_eq.
  intros [[[[-> ->] ->] ->] ->]; reflexivity.
Qed.

Lemma utf8Steps_app (bs rest : list N) :
  forall st,
  utf8Steps st (bs ++ rest)
  = (fst (utf8Steps (fst (utf8Steps st bs)) rest),
     snd (utf8Steps st bs) ++ snd (utf8Steps (fst (utf8Steps st bs)) rest)).
Proof.
  induction bs as [|b bs IH]; intros st; cbn [app utf8Steps fst snd].
  - destruct (utf8Steps st rest); reflexivity.
  - destruct (utf8Step st b) as [st' out]; rewrite IH.
    destruct (utf8Steps st' bs) as [st2 out2]; cbn [fst snd].
    destruct (utf8Steps st2 rest) as [st3 out3]; cbn [fst snd].
    rewrite app_assoc; reflexivity.
Qed.

(** A complete sequence at the head of a buffer gives its code points,
    and the rest is decoded from the start. *)
Lemma utf8ToString_block (block rest : list N) (out : list N) :
  utf8Steps utf8Start block = (utf8Start, out) ->
  utf8ToString (block ++ rest) = utf16 out ++ utf8ToString rest.
Proof.
  intros H; unfold utf8ToString, utf8Decode.
  rewrite utf8Steps_app, H; cbn [fst snd].
  unfold utf16; rewrite <- app_assoc, !flat_map_app; reflexivity.
Qed.

Lemma checked2 : N_forall check2 32 = true.
Proof. vm_cast_no_check (@eq_refl bool true). Qed.

Lemma checked3 : N_forall check3 1024 = true.
Proof. vm_cast_no_check (@eq_refl bool true). Qed.

Lemma checked4 : N_forall check4 17408 = true.
Proof. vm_cast_no_check (@eq_refl bool true). Qed.

Lemma checkedLast : N_forall checkLast 64 = true.
Proof. vm_cast_no_check (@eq_refl bool true). Qed.

Lemma land63_lt (c : N) : (N.land c 63 < 64)%N.
Proof.
  change 63%N with (N.ones 6); rewrite N.land_ones.
  apply N.mod_lt; discriminate.
Qed.

Lemma lor_shift_parts (c : N) :
  N.lor (N.shiftl (N.shiftr c 6) 6) (N.land c 63) = c.
Proof.
  apply N.bits_inj; intros i.
  rewrite N.lor_spec, N.land_spec.
  destruct (N.lt_ge_cases i 6) as [Hlt|Hge].
  - rewrite N.shiftl_spec_low by exact Hlt.
    assert (H63 : N.testbit 63 i = true).
    { change 63%N with (N.ones 6); apply N.ones_spec_low; exact Hlt. }
    rewrite H63, andb_true_r; reflexivity.
  - rewrite N.shiftl_spec_high' by exact Hge.
    rewrite N.shiftr_spec', N.sub_add by exact Hge.
    assert (H63 : N.testbit 63 i = false).
    { change 63%N with (N.ones 6); apply N.ones_spec_high; exact Hge. }
    rewrite H63, andb_false_r, orb_false_r; reflexivity.
Qed.

Lemma shiftr6_bounds (c lo hi : N) :
  (64 * lo <= c)%N -> (c < 64 * hi)%N ->
  (lo <= N.shiftr c 6 < hi)%N.
Proof.
  intros Hlo Hhi; rewrite N.shiftr_div_pow2; change (2 ^ 6)%N with 64%N.
  split.
  - apply N.div_le_lower_bound; [discriminate | exact Hlo].
  - apply N.Div0.div_lt_upper_bound; exact Hhi.
Qed.

(** A sequence whose first bytes leave the decoder waiting for the last
    byte, followed by that byte, is read as its code point. *)
Lemma complete_sequence (pre : list N) (c n : N) :
  n <> 0%N ->
  opens pre (N.shiftr c 6) n = true ->
  utf8Steps utf8Start (pre ++ [N.lor 128 (N.land c 63)]) = (utf8Start, [c]).
Proof.
  intros Hn Ho; unfold opens in Ho.
  destruct (utf8Steps utf8Start pre) as [st [|o out]] eqn:E;
    [|discriminate Ho].
  apply utf8State_eqb_eq in Ho; subst st.
  rewrite utf8Steps_app, E; cbn [fst snd app utf8Steps].
  pose proof (N_forall_spec _ _ checkedLast _ (land63_lt c)) as Hl.
  unfold checkLast in Hl; apply andb_true_iff in Hl.
  destruct Hl as [Hr Hm]; apply N.eqb_eq in Hm.
  unfold utf8Step; cbn [u8_needed u8_lower u8_upper u8_codepoint u8_seen].
  destruct (n =? 0)%N eqn:En; [apply N.eqb_eq in En; contradiction|].
  rewrite Hr, Hm, lor_shift_parts, N.succ_pred by exact Hn.
  rewrite N.eqb_refl; reflexivity.
Qed.

Lemma block2 (x : N) :
  (128 <= x < 2048)%N -> utf8Steps utf8Start (enc2 x) = (utf8Start, [x]).
Proof.
  intros [Hlo Hhi].
  destruct (shiftr6_bounds x 2 32) as [Hy1 Hy2]; [lia | lia |].
  pose proof (N_forall_spec _ _ checked2 _ Hy2) as Hc.
  unfold check2 in Hc.
  destruct (N.shiftr x 6 <? 2)%N eqn:E; [apply N.ltb_lt in E; lia|].
  apply (complete_sequence (pre2 (N.shiftr x 6)) x 1); [discriminate|exact Hc].
Qed.

Lemma block3 (x : N) :
  (2048 <= x < 65536)%N ->
  isHighSurrogate x = false -> isLowSurrogate x = false ->
  utf8Steps utf8Start (enc3 x) = (utf8Start, [x]).
Proof.
  intros [Hlo Hhi] Hh Hl.
  destruct (shiftr6_bounds x 32 1024) as [Hy1 Hy2]; [lia | lia |].
  pose proof (N_forall_spec _ _ checked3 _ Hy2) as Hc.
  unfold check3 in Hc.
  assert (Hsur : ((N.shiftr x 6 <? 32) || ((864 <=? N.shiftr x 6)
                                           && (N.shiftr x 6 <? 896)))%N
                 = false).
  { apply orb_false_iff; split; [apply N.ltb_ge; exact Hy1|].
    unfold isHighSurrogate, isLowSurrogate in Hh, Hl.
    apply andb_false_iff in Hh; apply andb_false_iff in Hl.
    rewrite !N.leb_gt in Hh, Hl.
    apply andb_false_iff.
    assert (Hx : (x < 55296 \/ 57343 < x)%N) by lia.
    destruct Hx as [Hx|Hx].
    - left; apply N.leb_gt.
      destruct (shiftr6_bounds x 0 864) as [_ H]; [lia | lia | exact H].
    - right; apply N.ltb_ge.
      destruct (shiftr6_bounds x 896 1024) as [H _]; [lia | lia | exact H]. }
  rewrite Hsur in Hc.
  pose proof (complete_sequence (pre3 (N.shiftr x 6)) x 2
                ltac:(discriminate) Hc) as H.
  unfold pre3 in H; rewrite N.shiftr_shiftr in H; exact H.
Qed.

Lemma block4 (c : N) :
  (65536 <= c < 1114112)%N ->
  utf8Steps utf8Start (enc4 c) = (utf8Start, [c]).
Proof.
  intros [Hlo Hhi].
  destruct (shiftr6_bounds c 1024 17408) as [Hy1 Hy2]; [lia | lia |].
  pose proof (N_forall_spec _ _ checked4 _ Hy2) as Hc.
  unfold check4 in Hc.
  destruct (N.shiftr c 6 <? 1024)%N eqn:E; [apply N.ltb_lt in E; lia|].
  pose proof (complete_sequence (pre4 (N.shiftr c 6)) c 3
                ltac:(discriminate) Hc) as H.
  unfold pre4 in H; rewrite !N.shiftr_shiftr in H; exact H.
Qed.

Lemma utf8Steps_ascii (x : N) :
  (x < 128)%N -> utf8Steps utf8Start [x] = (utf8Start, [x]).
Proof.
  intros Hx; cbn [utf8Steps]; unfold utf8Step; cbn [u8_needed utf8Start N.eqb].
  unfold utf8First.
  destruct (x <=? 127)%N eqn:E; [reflexivity|].
  apply N.leb_gt in E; lia.
Qed.

Lemma splitsPair_tail (x : N) (r : jsstring) (i : nat) :
  splitsPair (x :: r) (S i) = false -> splitsPair r i = false.
Proof. destruct i as [|j]; [reflexivity | intros H; exact H]. Qed.

(** The text decoded from the bytes of the first [i] code units has [i]
    code units. *)
Lemma prefix_decodes (s : jsstring) :
  Forall (fun u => (u < 65536)%N) s ->
  forall i, (i <= length s)%nat -> splitsPair s i = false ->
  length (utf8ToString (firstn (byteLength (firstn i s)) (utf8Encode s))) = i.
Proof.
  assert (Hone : forall block c rest n,
             utf8Steps utf8Start block = (utf8Start, [c]) ->
             (c < 65536)%N ->
             length (utf8ToString (firstn (length block + n) (block ++ rest)))
             = S (length (utf8ToString (firstn n rest)))).
  { intros block c rest n Hb Hc.
    rewrite firstn_app_2, (utf8ToString_block _ _ _ Hb), length_app.
    unfold utf16 at 1; cbn [flat_map].
    apply N.ltb_lt in Hc; rewrite Hc; reflexivity. }
  induction s as [|x|x y l IHl IHy] using list_pair_ind; intros Hall i Hi Hsp.
  - destruct i; [reflexivity | cbn [length] in Hi; lia].
  - destruct i as [|[|i]]; [reflexivity | | cbn [length] in Hi; lia].
    inversion Hall as [|? ? Hx _]; subst.
    cbn [firstn byteLength utf8Encode].
    destruct (x <? 128)%N eqn:E1.
    { apply N.ltb_lt in E1.
      apply (Hone [x] x [] 0%nat); [|lia].
      apply utf8Steps_ascii; exact E1. }
    apply N.ltb_ge in E1.
    destruct (x <? 2048)%N eqn:E2.
    { apply N.ltb_lt in E2.
      rewrite <- (app_nil_r (enc2 x)).
      apply (Hone (enc2 x) x [] 0%nat (block2 x (conj E1 E2))); lia. }
    apply N.ltb_ge in E2.
    destruct (isHighSurrogate x) eqn:E3; [reflexivity|].
    destruct (isLowSurrogate x) eqn:E4; [reflexivity|].
    rewrite <- (app_nil_r (enc3 x)).
    apply (Hone (enc3 x) x [] 0%nat (block3 x (conj E2 Hx) E3 E4) Hx).
  - destruct i as [|i]; [reflexivity|].
    inversion Hall as [|? ? Hx Hall']; subst.
    inversion Hall' as [|? ? Hy Hall'']; subst.
    assert (Hi' : (i <= length (y :: l))%nat) by (cbn [length] in Hi |- *; lia).
    pose proof (splitsPair_tail _ _ _ Hsp) as Hsp'.
    specialize (IHy Hall' i Hi' Hsp').
    (* one code unit [x] encoded by [block], read as [c] *)
    assert (Hgen : forall block c k,
               utf8Steps utf8Start block = (utf8Start, [c]) ->
               (c < 65536)%N -> length block = k ->
               utf8Encode (x :: y :: l) = block ++ utf8Encode (y :: l) ->
               byteLength (x :: firstn i (y :: l))
               = (k + byteLength (firstn i (y :: l)))%nat ->
               length (utf8ToString
                         (firstn (byteLength (firstn (S i) (x :: y :: l)))
                                 (utf8Encode (x :: y :: l)))) = S i).
    { intros block c k Hb Hc Hk He Hbl.
      change (firstn (S i) (x :: y :: l)) with (x :: firstn i (y :: l)).
      rewrite He, Hbl, <- Hk, (Hone block c _ _ Hb Hc), IHy; reflexivity. }
    destruct (x <? 128)%N eqn:E1.
    { apply N.ltb_lt in E1.
      apply (Hgen [x] x 1%nat); try reflexivity; try lia.
      - apply utf8Steps_ascii; exact E1.
      - cbn [utf8Encode]; apply N.ltb_lt in E1; rewrite E1; reflexivity.
      - cbn [byteLength]; apply N.ltb_lt in E1; rewrite E1; reflexivity. }
    destruct (x <? 2048)%N eqn:E2.
    { assert (Hb : utf8Steps utf8Start (enc2 x) = (utf8Start, [x])).
      { apply block2; apply N.ltb_ge in E1; apply N.ltb_lt in E2; lia. }
      apply (Hgen (enc2 x) x 2%nat Hb); try reflexivity; try lia.
      - cbn [utf8Encode]; rewrite E1, E2; reflexivity.
      - cbn [byteLength]; rewrite E1, E2; reflexivity. }
    destruct (isHighSurrogate x) eqn:E3.
    + destruct (isLowSurrogate y) eqn:E5.
      * (* a surrogate pair *)
        destruct i as [|i].
        { cbn [splitsPair nth_error] in Hsp; rewrite E3, E5 in Hsp.
          discriminate Hsp. }
        assert (Hi'' : (i <= length l)%nat) by (cbn [length] in Hi |- *; lia).
        pose proof (splitsPair_tail _ _ _ Hsp') as Hsp''.
        specialize (IHl Hall'' i Hi'' Hsp'').
        change (firstn (S (S i)) (x :: y :: l)) with (x :: y :: firstn i l).
        cbn [utf8Encode byteLength]; rewrite E1, E2, E3, E5.
        unfold isHighSurrogate in E3; unfold isLowSurrogate in E5.
        apply andb_true_iff in E3; apply andb_true_iff in E5.
        rewrite !N.leb_le in E3, E5.
        set (cp := (65536 + (x - 55296) * 1024 + (y - 56320))%N).
        assert (Hcp : (65536 <= cp < 1114112)%N) by (unfold cp; lia).
        pose proof (block4 cp Hcp) as Hb.
        change (4 + byteLength (firstn i l))%nat
          with (length (enc4 cp) + byteLength (firstn i l))%nat.
        rewrite firstn_app_2, (utf8ToString_block _ _ _ Hb), length_app, IHl.
        unfold utf16; cbn [flat_map].
        destruct (cp <? 65536)%N eqn:E; [apply N.ltb_lt in E; lia|].
        reflexivity.
      * (* a lone high surrogate *)
        apply (Hgen encReplacement 65533%N 3%nat); try reflexivity.
        -- cbn [utf8Encode]; rewrite E1, E2, E3, E5; reflexivity.
        -- destruct i; cbn [firstn byteLength]; rewrite E1, E2, E3, ?E5;
             reflexivity.
    + destruct (isLowSurrogate x) eqn:E4.
      * apply (Hgen encReplacement 65533%N 3%nat); try reflexivity.
        -- cbn [utf8Encode]; rewrite E1, E2, E3, E4; reflexivity.
        -- cbn [byteLength]; rewrite E1, E2, E3; reflexivity.
      * assert (Hb : utf8Steps utf8Start (enc3 x) = (utf8Start, [x])).
        { apply block3; [apply N.ltb_ge in E2; lia | exact E3 | exact E4]. }
        apply (Hgen (enc3 x) x 3%nat Hb Hx); try reflexivity.
        -- cbn [utf8Encode]; rewrite E1, E2, E3, E4; reflexivity.
        -- cbn [byteLength]; rewrite E1, E2, E3; reflexivity.
Qed.

(** X13.  [characterIndex] undoes [byteIndex]: for every offset inside the
    content that does not cut a surrogate pair in two, the character index
    of the byte index of the offset is the offset. *)
Theorem characterIndex_byteIndex (content : jsstring) (index : nat) :
  Forall (fun u => (u < 65536)%N) content ->
  (index <= length content)%nat ->
  splitsPair content index = false ->
  characterIndex content (Z.of_nat (byteIndex content index)) = index.
Proof.
  intros Hall Hi Hsp.
  unfold characterIndex.
  rewrite jsSlice_prefix, Nat2Z.id, byteIndex_firstn by lia.
  apply prefix_decodes; assumption.
Qed.

(** ** The label table in every reachable state *)

Lemma jump_table (h : Host) (isFwd : bool) (chr : option jsstring)
    (m0 : Manager) :
  exists screen,
    positionMap (fst (fst (jump ws h isFwd chr m0)))
    = labelEntries characters screen.
Proof.
  assert (Hm2 : positionMap (afterPrompt h isFwd chr m0) = JsMap.empty).
  { unfold afterPrompt; destruct (negb (truthy_opt chr)); reflexivity. }
  destruct (batch1 h) as [err|v] eqn:Hb.
  { exists []; unfold jump; rewrite Hb; reflexivity. }
  pose proof (jump_shape ws h isFwd chr m0 v Hb) as Hs; cbv zeta in Hs.
  destruct (candidates ws isFwd (searchCharacter h chr) v (wordJump m0))
    as [|first rest].
  { exists []; rewrite Hs; exact Hm2. }
  destruct Hs as [positions [currpos [ev [screen [_ [_ Hj]]]]]].
  rewrite Hj.
  destruct positions as [|p positions]; [exists []; exact Hm2|].
  exists screen; unfold showLabels; destruct (snd (batch2 h)); reflexivity.
Qed.

(** X14.  In every state the manager can reach, the keys of the label table
    are the first symbols of the alphabet, in the order of the alphabet, as
    many as the table has entries; the table has at most 38 entries, and
    every entry records its own key as its label. *)
Theorem label_table_is_alphabet_prefix (m : Manager) :
  reachable ws m ->
  JsMap.keys (positionMap m)
  = firstn (JsMap.size (positionMap m)) characters
  /\ (JsMap.size (positionMap m) <= 38)%nat
  /\ (forall key val, In (key, val) (positionMap m) ->
                      ch_character val = key).
Proof.
  intros Hr.
  assert (H : exists screen, positionMap m = labelEntries characters screen).
  { induction Hr as [config|h isFwd chr m _ _|m r _ IH|m _ IH].
    - exists []; reflexivity.
    - apply jump_table.
    - rewrite getCharacter_positionMap; exact IH.
    - rewrite cancel_state; exact IH. }
  destruct H as [screen ->].
  unfold JsMap.size; rewrite labelEntries_length, labelEntries_keys,
    characters_length.
  split.
  { destruct (Nat.le_ge_cases (length screen) 38) as [Hle|Hge].
    - rewrite Nat.min_r by exact Hle; reflexivity.
    - rewrite Nat.min_l by exact Hge.
      rewrite !firstn_all2 by (rewrite characters_length; lia); reflexivity. }
  split; [lia|].
  intros key val Hin; unfold labelEntries in Hin.
  apply in_map_iff in Hin; destruct Hin as [[k q] [E _]].
  injection E as <- <-; reflexivity.
Qed.

(** ** When a session opens *)

Lemma firstJump_length (h : Host) (isFwd : bool) (v : View)
    (lines : list jsstring) (cands : list Position) (jumpNow : bool)
    (positions : list Position) (currpos : Z * Z) (ev : list Event) :
  firstJump h isFwd v lines cands jumpNow = Some (positions, currpos, ev) ->
  length cands = ((if jumpNow then 1 else 0) + length positions)%nat.
Proof.
  intros H; apply firstJump_events in H.
  destruct H as [[-> [_ [first [-> _]]]]|[-> [_ [-> _]]]]; reflexivity.
Qed.

(** X15.  A call of [jump] shows markers and starts the key capture exactly
    when the first batch succeeds, the scan finds more candidates than
    jumpOnTrigger consumes (at least two with it, at least one without), and
    the batch of the markers succeeds. *)
Theorem session_opens_iff (h : Host) (isFwd : bool) (chr : option jsstring)
    (m0 : Manager) :
  (exists ss, snd (jump ws h isFwd chr m0) = Awaiting ss)
  <-> exists v,
        batch1 h = inr v
        /\ ((if jumpOnTrigger m0 then 1 else 0)
            < length (candidates ws isFwd (searchCharacter h chr) v
                                 (wordJump m0)))%nat
        /\ snd (batch2 h) = None.
Proof.
  split.
  - intros [ss Hss].
    destruct (jump ws h isFwd chr m0) as [[m evs] out] eqn:Hj.
    cbn [snd] in Hss; subst out.
    apply jump_awaiting in Hj.
    destruct Hj as [v [positions [currpos [ev [screen Hj]]]]].
    destruct Hj as [Hb [Hfj [Hne [_ [He _]]]]].
    exists v; split; [exact Hb|]; split; [|exact He].
    rewrite (firstJump_length _ _ _ _ _ _ _ _ _ Hfj).
    destruct positions; [contradiction Hne; reflexivity|].
    cbn [length]; lia.
  - intros [v [Hb [Hlen He]]].
    pose proof (jump_shape ws h isFwd chr m0 v Hb) as Hs; cbv zeta in Hs.
    destruct (candidates ws isFwd (searchCharacter h chr) v (wordJump m0))
      as [|first rest]; [cbn [length] in Hlen; lia|].
    destruct Hs as [positions [currpos [ev [screen [Hfj [_ Hj]]]]]].
    apply firstJump_length in Hfj; rewrite Hfj in Hlen.
    rewrite Hj.
    destruct positions as [|p positions]; [cbn [length] in Hlen; lia|].
    unfold showLabels; rewrite He; eexists; reflexivity.
Qed.

(** ** The side of the cursor *)

(** X16.  For a cursor inside the viewport, every candidate of a forward
    jump lies on the screen strictly after the cursor (a later line, or the
    cursor's line at a greater byte column), and every candidate of a
    backward jump strictly before it; so no jump lands on the cursor or on
    the wrong side of it. *)
Theorem candidates_beyond_cursor (v : View) (isFwd : bool) (c : jsstring)
    (wj : bool) (p : Position) (q : Z * Z) (text : jsstring) :
  let k := fst (v_cursor v) - (v_startline v - 1) in
  let cursorLine := fst (v_cursor v) + 1 in
  let cursorCol :=
    Z.of_nat (byteIndex text (Z.to_nat (snd (v_cursor v)))) + 1 in
  0 <= k < Z.of_nat (length (v_lines v)) ->
  0 <= snd (v_cursor v) ->
  nth_error (v_lines v) (Z.to_nat k) = Some text ->
  v_currline v = text ->
  In p (candidates ws isFwd c v wj) ->
  screenPos isFwd v (scanLines isFwd v) p = Some q ->
  if isFwd
  then cursorLine < fst q \/ (fst q = cursorLine /\ cursorCol < snd q)
  else fst q < cursorLine \/ (fst q = cursorLine /\ snd q < cursorCol).
Proof.
  intros k cursorLine cursorCol Hk Hcol Htext Hcurr Hp Hq.
  apply candidates_In, getPositions_In in Hp.
  destruct Hp as [t [Hn [Hlt Hc]]].
  apply isCandidate_true in Hc; destruct Hc as [_ [_ Hoff]].
  unfold screenPos in Hq; rewrite Hn in Hq; injection Hq as <-.
  cbn [fst snd]; unfold cursorLine, cursorCol; clear cursorLine cursorCol.
  destruct isFwd.
  - destruct (pos_line p) as [|n] eqn:El; [right | left; fold k; lia].
    split; [lia|].
    unfold scanLines in Hn; cbn [negb] in Hn; fold k in Hn.
    rewrite jsSliceFrom_suffix, nth_error_skipn, Nat.add_0_r, Htext in Hn
      by lia.
    injection Hn as <-.
    specialize (Hoff eq_refl); unfold scanOffset in Hoff; cbn [negb] in Hoff.
    pose proof (byteIndex_increasing text (Z.to_nat (snd (v_cursor v)))
                  (pos_character p)) as Hinc.
    specialize (Hinc ltac:(lia)); lia.
  - rewrite (scanLines_backward v Hk Hcol) in Hn; fold k in Hn.
    assert (Hlen : length (firstn (Z.to_nat k) (v_lines v)) = Z.to_nat k)
      by (rewrite length_firstn; lia).
    destruct (Nat.lt_trichotomy (pos_line p) (Z.to_nat k)) as [Hl|[E|Hg]].
    + left; fold k; lia.
    + right; split; [fold k; lia|].
      rewrite nth_error_app2, Hlen, E, Nat.sub_diag in Hn by lia.
      injection Hn as <-; rewrite Hcurr in *.
      rewrite length_firstn in Hlt.
      rewrite !byteIndex_firstn, firstn_firstn.
      rewrite Nat.min_l by lia.
      rewrite <- !byteIndex_firstn.
      destruct (Nat.le_ge_cases (Z.to_nat (snd (v_cursor v))) (length text))
        as [Hle|Hge].
      * pose proof (byteIndex_increasing text (pos_character p)
                      (Z.to_nat (snd (v_cursor v))) ltac:(lia)); lia.
      * pose proof (byteIndex_increasing text (pos_character p)
                      (length text) ltac:(lia)) as Hinc.
        rewrite (byteIndex_firstn text (Z.to_nat (snd (v_cursor v)))),
          firstn_all2 by lia.
        rewrite (byteIndex_firstn text (length text)), firstn_all in Hinc.
        lia.
    + rewrite nth_error_app2, Hlen in Hn by lia.
      destruct (pos_line p - Z.to_nat k)%nat as [|[|n]] eqn:Ed;
        [lia | discriminate Hn | discriminate Hn].
Qed.

End Further.

(** ** The further properties at concrete sessions *)

(** repeatOpposite after a forward search for x: the session runs
    backward, the stored direction stays forward. *)
Lemma repeat_keeps_stored_search_witness :
  isForward (fst (fst rowOppositeRun)) = true
  /\ character (fst (fst rowOppositeRun)) = Some (js "x")
  /\ s_isForward (theSession (snd rowOppositeRun)) = false.
Proof.
  destruct (repeat_keeps_stored_search afterSpace RepeatOpposite rowHost
              (fst (fst rowMissRun)))
    as [Hc [Hf [_ Hs]]].
  - right; reflexivity.
  - vm_compute; reflexivity.
  - destruct (Hs (theSession (snd rowOppositeRun))) as [_ Hd].
    + vm_compute; reflexivity.
    + split; [exact Hf|]; split; [exact Hc | exact Hd].
Defined.

(** After forward on the three lines, the key b moves the cursor to the
    match on the third line. *)
Lemma label_key_moves_cursor_witness :
  exists q,
    screenPos true foxView (s_lines (theSession (snd foxRun)))
              (mkPosition 2 1) = Some q
    /\ getCharacter (fst (fst foxRun)) (KeyFirst (js "b"))
       = (set_matchIds [] (fst (fst foxRun)),
          [GetChar; SetTimeout (timerDelay (fst (fst foxRun)))]
          ++ (if (length (fst (batch2 foxHost)) =? 0)%nat then []
              else [clearBatch (fst (batch2 foxHost))])
          ++ [Notify (call_cursor q)],
          None).
Proof.
  apply (label_key_moves_cursor afterSpace foxHost true None freshManager
           (fst (fst foxRun)) (snd (fst foxRun)) (theSession (snd foxRun))
           foxView 1 (mkPosition 2 1) (js "b")).
  - vm_compute; reflexivity.
  - reflexivity.
  - vm_compute; reflexivity.
  - vm_compute; reflexivity.
Defined.

(** After forward on the three lines, an escape only clears the markers. *)
Lemma other_key_only_cancels_witness :
  getCharacter (fst (fst foxRun)) (KeyFirst escape)
  = (set_matchIds [] (fst (fst foxRun)),
     [GetChar; SetTimeout (timerDelay (fst (fst foxRun)))]
     ++ (if (length (fst (batch2 foxHost)) =? 0)%nat then []
         else [clearBatch (fst (batch2 foxHost))]),
     None).
Proof.
  apply (other_key_only_cancels afterSpace foxHost true None freshManager
           (fst (fst foxRun)) (snd (fst foxRun)) (theSession (snd foxRun))
           escape).
  - vm_compute; reflexivity.
  - vm_compute; intros [H|[H|[]]]; discriminate H.
  - left; discriminate.
Defined.


(** forward on the three lines without jumpOnTrigger: three labels, the
    first match is labelled a, the cursor stays. *)
Lemma no_jump_on_trigger_witness :
  JsMap.get (js "a") (positionMap (fst (fst stayRun)))
  = Some (mkCharacter (1, 2) (js "a"))
  /\ filter (sends isCursorCall) (snd (fst stayRun)) = []
  /\ JsMap.size (positionMap (fst (fst stayRun))) = 3%nat.
Proof.
  destruct (no_jump_on_trigger afterSpace foxHost true None
              (newManager stayConfig) foxView (mkPosition 0 1)
              [mkPosition 1 1; mkPosition 2 1])
    as [q [screen [Hsc [_ [Hget [_ Hno]]]]]].
  - reflexivity.
  - reflexivity.
  - vm_compute; reflexivity.
  - split; [|split; [exact Hno | vm_compute; reflexivity]].
    unfold stayRun, forward; rewrite Hget.
    inversion Hsc as [|? ? ? ? Hq _]; subst.
    vm_compute in Hq; injection Hq as <-; reflexivity.
Defined.

(** The byte index of offset 2 of the mixed text: one byte for the letter,
    three for the euro sign. *)
Lemma byteIndex_bounds_witness :
  (2 <= byteIndex mixedText 2 <= 6)%nat
  /\ (byteIndex mixedText 2 < byteIndex mixedText 4)%nat.
Proof.
  destruct (byteIndex_bounds mixedText 2) as [Hb [Hinc _]].
  - vm_compute; lia.
  - split; [exact Hb|].
    apply Hinc; vm_compute; lia.
Defined.

(** The markers of forward over the row of x are at distinct positions,
    none of them where the cursor went. *)
Lemma screen_positions_distinct_witness :
  NoDup (map ch_position (JsMap.values (positionMap (fst (fst rowForwardRun))))
         ++ s_remains (theSession (snd rowForwardRun)))
  /\ ~ In (s_currpos (theSession (snd rowForwardRun)))
          (map ch_position
               (JsMap.values (positionMap (fst (fst rowForwardRun))))
           ++ s_remains (theSession (snd rowForwardRun))).
Proof.
  destruct (screen_positions_distinct afterSpace rowStartHost true None
              freshManager (fst (fst rowForwardRun))
              (snd (fst rowForwardRun)) (theSession (snd rowForwardRun))
              rowStartView)
    as [Hn Hc].
  - vm_compute; reflexivity.
  - reflexivity.
  - split; [exact Hn | apply Hc; reflexivity].
Defined.

(** backward on the six lines: the match on row 2 of the viewport is sent
    as line 3, byte column 2. *)
Lemma screen_line_is_buffer_line_witness :
  exists row text,
    nth_error (scanLines false sixView) 2 = Some text
    /\ (3 : Z) = v_startline sixView + Z.of_nat row
    /\ row = 2%nat.
Proof.
  destruct (screen_line_is_buffer_line sixView false (mkPosition 2 1) (3, 2))
    as [row [text [Hn [Hl [_ [Hr _]]]]]].
  - vm_compute; split; [discriminate | reflexivity].
  - vm_compute; discriminate.
  - vm_compute; reflexivity.
  - exists row, text; split; [exact Hn|]; split; [exact Hl | exact Hr].
Defined.

(** The mixed text at offset 4, after the emoji: 8 bytes, 4 code units. *)
Lemma characterIndex_byteIndex_witness :
  byteIndex mixedText 4 = 8%nat
  /\ characterIndex mixedText (Z.of_nat (byteIndex mixedText 4)) = 4%nat.
Proof.
  split; [vm_compute; reflexivity|].
  apply (characterIndex_byteIndex mixedText 4).
  - repeat constructor.
  - vm_compute; lia.
  - vm_compute; reflexivity.
Defined.

(** The label table after going backward over the row of x: the 38 symbols
    of the alphabet. *)
Lemma label_table_is_alphabet_prefix_witness :
  JsMap.keys (positionMap (fst (fst rowBackRun))) = characters.
Proof.
  destruct (label_table_is_alphabet_prefix afterSpace (fst (fst rowBackRun)))
    as [Hk _].
  - unfold rowBackRun, backward; apply reach_jump, reach_new.
  - rewrite Hk; vm_compute; reflexivity.
Defined.

(** backward on the six lines: the match on the cursor's line is at byte
    column 4, before the cursor at byte column 11. *)
Lemma candidates_beyond_cursor_witness :
  (4 : Z) < Z.of_nat (byteIndex (js "abcxefghijklm") 10) + 1.
Proof.
  destruct (candidates_beyond_cursor afterSpace sixView false (js "x") false
              (mkPosition 5 3) (6, 4) (js "abcxefghijklm"))
    as [H|[_ H]].
  - vm_compute; split; [discriminate | reflexivity].
  - vm_compute; discriminate.
  - vm_compute; reflexivity.
  - reflexivity.
  - vm_compute; left; reflexivity.
  - vm_compute; reflexivity.
  - vm_compute in H; discriminate H.
  - exact H.
Defined.
